(** * Airdrop engine: batching of transfers and sequential submission

    A shallow embedding of [src/index.ts]: the batcher
    [generateTransactions] and the submission loop [executeTransactions],
    together with the type guards and the pattern match on error messages
    they rely on.

    Conventions of the embedding.
    - JavaScript numbers that the code uses as indices, counters, sizes and
      block heights are integers ([Z]).  The one place where a non-integer
      value can arise from integer operands, [Math.ceil(length / batchSize)],
      is given the three-way type [jsnum].
    - The amount of SOL per recipient and the lamports computed from it are
      numbers proper: binary64 floats ([float]), multiplied as the machine
      multiplies them.
    - Strings are [string]; the class [\w] of the regular expression is the
      ASCII class, as in JavaScript without the [u] flag.
    - Values thrown by the collaborators are records holding what the type
      guards of the source can observe of them.
    - Collaborators of the ledger client library ([PublicKey],
      [SystemProgram.transfer], the [Connection] methods) are parameters. *)

From Stdlib Require Import PrimFloat SpecFloat FloatOps.
From Stdlib Require Import String Ascii DecimalString ZArith QArith Bool Lia List
  Sorted.
Import ListNotations.
Local Open Scope string_scope.
Local Open Scope list_scope.
Local Open Scope Z_scope.

(** ** Thrown values and completions *)

(** What the code inspects of a caught value: whether it has a [name]
    property and its value, whether it has a [signature] property, and its
    [message] when that is a string. *)
Record JsError : Type := mkJsError {
  err_name : option string;
  err_signature : option string;
  err_message : option string
}.

(** [new Error(msg)]. *)
Definition newError (msg : string) : JsError :=
  {| err_name := Some "Error"; err_signature := None; err_message := Some msg |}.

(** How an evaluation ends: with a value, or with a thrown one. *)
Inductive completion (A : Type) : Type :=
| Normal (a : A)
| Abrupt (e : JsError).
Arguments Normal {A} a.
Arguments Abrupt {A} e.

(** ** Data of the source *)

Record Drop : Type := mkDrop {
  owner : string;
  address : string
}.

Definition NUM_DROPS_PER_TX : Z := 5.
Definition TX_INTERVAL : Z := 1000.

(** The values [Math.ceil(n / d)] can take for an array length [n] and an
    integer [d]. *)
Inductive jsnum : Type :=
| Num (z : Z)
| Infinity
| NaN.

(** [Math.ceil(n / d)] for [0 <= n]: [n / 0] is [Infinity] for [0 < n] and
    [NaN] for [n = 0]; otherwise the quotient is rounded up (a quotient
    between [-1] and [0] gives [-0], which compares like [0]).  The double
    quotient of two integers below [2^32] is never rounded across an
    integer, so the ceiling is the mathematical one. *)
Definition ceil_div (n d : Z) : jsnum :=
  if d =? 0 then (if n =? 0 then NaN else Infinity)
  else Num (- ((- n) / d)).

(** [i < x] for an integer [i]. *)
Definition lt_jsnum (i : Z) (x : jsnum) : bool :=
  match x with
  | Num z => i <? z
  | Infinity => true
  | NaN => false
  end.

(** ** The ledger client library *)

(** The argument of [SystemProgram.transfer], over the key type of the
    library; [lamports] is a number. *)
Record TransferParams (Key : Type) : Type := mkTransferParams {
  fromPubkey : Key;
  toPubkey : Key;
  lamports : float
}.
Arguments mkTransferParams {Key} _ _ _.
Arguments fromPubkey {Key} _.
Arguments toPubkey {Key} _.
Arguments lamports {Key} _.

(** What the code takes from the ledger client library besides the
    connection: the key type, whose constructor throws on a string that is
    not a key, the signer type, the number of base units per SOL, and the
    instructions with [SystemProgram.transfer], which builds one from its
    parameters or throws (the library encodes [lamports] as an unsigned
    64-bit integer and refuses a number that is not one). *)
Class LedgerClient : Type := {
  PublicKey : Type;
  newPublicKey : string -> completion PublicKey;
  Keypair : Type;
  LAMPORTS_PER_SOL : float;
  TransactionInstruction : Type;
  SystemProgram_transfer :
    TransferParams PublicKey -> completion TransactionInstruction
}.

(** The integer a number stands for, when it is one: what [BigInt(x)]
    returns; [None] where it throws (a fraction, an infinity, [NaN]). *)
Definition integerValue (x : float) : option Z :=
  match Prim2SF x with
  | S754_zero _ => Some 0
  | S754_finite s m e =>
      let magnitude :=
        if 0 <=? e then Some (Z.pos m * 2 ^ e)
        else if Z.pos m mod 2 ^ (- e) =? 0 then Some (Z.pos m / 2 ^ (- e))
             else None in
      match magnitude with
      | Some z => Some (if s then - z else z)
      | None => None
      end
  | S754_infinity _ => None
  | S754_nan => None
  end.

Section Data.
Context {L : LedgerClient}.

Record Transaction : Type := mkTransaction {
  instructions : list TransactionInstruction;
  recentBlockhash : option string
}.

(** [new Transaction()] *)
Definition newTransaction : Transaction :=
  {| instructions := []; recentBlockhash := None |}.

(** [transaction.add(ins)] *)
Definition add (t : Transaction) (ins : TransactionInstruction) : Transaction :=
  {| instructions := instructions t ++ [ins];
     recentBlockhash := recentBlockhash t |}.

(** [arr[j]]: [undefined] outside the array. *)
Definition index {A : Type} (arr : list A) (j : Z) : option A :=
  if j <? 0 then None else nth_error arr (Z.to_nat j).

(** ** generateTransactions *)

(** The parameters of the transfer to the key [pk]:
    [{fromPubkey: fromWallet, toPubkey: pk,
      lamports: amount * LAMPORTS_PER_SOL}], the product being that of two
    doubles. *)
Definition transferParams (fromWallet : PublicKey) (amount : float)
    (pk : PublicKey) : TransferParams PublicKey :=
  {| fromPubkey := fromWallet;
     toPubkey := pk;
     lamports := PrimFloat.mul amount LAMPORTS_PER_SOL |}.

(** [dropList.map(drop => SystemProgram.transfer({...}))]: the first owner
    that is not a key, or the first transfer that the library refuses, ends
    the map abruptly. *)
Fixpoint mapTransfer (fromWallet : PublicKey) (amount : float)
    (dropList : list Drop) : completion (list TransactionInstruction) :=
  match dropList with
  | [] => Normal []
  | drop :: rest =>
      match newPublicKey (owner drop) with
      | Abrupt e => Abrupt e
      | Normal pk =>
          match SystemProgram_transfer (transferParams fromWallet amount pk) with
          | Abrupt e => Abrupt e
          | Normal ins =>
              match mapTransfer fromWallet amount rest with
              | Abrupt e => Abrupt e
              | Normal l => Normal (ins :: l)
              end
          end
      end
  end.

(** The drop can be turned into an instruction: its owner is a key, and
    the library accepts the transfer to it. *)
Definition Transferable (fromWallet : PublicKey) (amount : float)
    (drop : Drop) : Prop :=
  exists pk ins,
    newPublicKey (owner drop) = Normal pk
    /\ SystemProgram_transfer (transferParams fromWallet amount pk) = Normal ins.

(** The inner loop [for (j = lowerIndex; j < upperIndex; j++)], which runs
    [max 0 (upperIndex - lowerIndex)] times: [n] is the number of rounds
    left, [j] the current index. *)
Fixpoint fillTransaction (txInstructions : list TransactionInstruction)
    (n : nat) (j : Z) (bulkTransaction : Transaction) : Transaction :=
  match n with
  | O => bulkTransaction
  | S n' =>
      fillTransaction txInstructions n' (j + 1)
        (match index txInstructions j with
         | Some ins => add bulkTransaction ins
         | None => bulkTransaction
         end)
  end.

(** The outer loop [for (i = 0; i < numTransactions; i++)].  Its bound can
    be [Infinity], so the loop takes fuel: [None] is a loop still running
    when the fuel is spent. *)
Fixpoint batchLoop (fuel : nat) (numTransactions : jsnum) (batchSize : Z)
    (txInstructions : list TransactionInstruction) (i : Z)
    (result : list Transaction) : option (list Transaction) :=
  match fuel with
  | O => None
  | S fuel' =>
      if lt_jsnum i numTransactions then
        let lowerIndex := i * batchSize in
        let upperIndex := (i + 1) * batchSize in
        let bulkTransaction :=
          fillTransaction txInstructions
            (Z.to_nat (upperIndex - lowerIndex)) lowerIndex newTransaction in
        batchLoop fuel' numTransactions batchSize txInstructions (i + 1)
          (result ++ [bulkTransaction])
      else Some result
  end.

Definition generateTransactions (fuel : nat) (batchSize : Z)
    (dropList : list Drop) (fromWallet : PublicKey) (amount : float)
  : option (completion (list Transaction)) :=
  match mapTransfer fromWallet amount dropList with
  | Abrupt e => Some (Abrupt e)
  | Normal txInstructions =>
      let numTransactions :=
        ceil_div (Z.of_nat (length txInstructions)) batchSize in
      match batchLoop fuel numTransactions batchSize txInstructions 0 [] with
      | None => None
      | Some result => Some (Normal result)
      end
  end.

End Data.

(** ** Type guards and the pattern on error messages *)

Definition expiredName : string := "TransactionExpiredBlockheightExceededError".

(** [isTransactionExpiredBlockheightExceededError]: the value has a [name]
    and a [signature] property and its name is the expiry error's. *)
Definition isTransactionExpiredBlockheightExceededError (error : JsError) : bool :=
  match err_name error, err_signature error with
  | Some n, Some _ => String.eqb n expiredName
  | _, _ => false
  end.

(** [isErrorWithMessage]: the value has a [message] that is a string. *)
Definition isErrorWithMessage (error : JsError) : bool :=
  match err_message error with
  | Some _ => true
  | None => false
  end.

(** The class [\w]: letters, digits and the underscore. *)
Definition is_word_char (c : ascii) : bool :=
  let n := nat_of_ascii c in
  ((48 <=? n) && (n <=? 57) || (65 <=? n) && (n <=? 90)
   || (97 <=? n) && (n <=? 122) || (n =? 95))%nat.

(** The rest of [s] after the literal [p], when [s] starts with it. *)
Fixpoint strip_prefix (p s : string) : option string :=
  match p, s with
  | EmptyString, _ => Some s
  | String a p', String b s' =>
      if Ascii.eqb a b then strip_prefix p' s' else None
  | String _ _, EmptyString => None
  end.

(** The longest run of word characters at the start of [s]: the greedy
    [\w+] (or nothing). *)
Fixpoint take_word (s : string) : string :=
  match s with
  | EmptyString => EmptyString
  | String c s' => if is_word_char c then String c (take_word s') else EmptyString
  end.

(** [/Signature (\w+)/] tried at the start of [s]: group 1 on a match. *)
Definition match_here (s : string) : option string :=
  match strip_prefix "Signature " s with
  | Some rest =>
      match take_word rest with
      | EmptyString => None
      | w => Some w
      end
  | None => None
  end.

(** [s.match(/Signature (\w+)/)], reduced to group 1 of the leftmost
    match. *)
Fixpoint match_signature (s : string) : option string :=
  match match_here s with
  | Some w => Some w
  | None =>
      match s with
      | EmptyString => None
      | String _ s' => match_signature s'
      end
  end.

(** [errorSignature]: group 1 of the match on [error.message], [null]
    without a match.  The code computes it for errors with a message. *)
Definition errorSignature (error : JsError) : option string :=
  match err_message error with
  | Some message => match_signature message
  | None => None
  end.

(** Whether the character [c] occurs in [s]. *)
Fixpoint occurs (c : ascii) (s : string) : bool :=
  match s with
  | EmptyString => false
  | String a s' => Ascii.eqb a c || occurs c s'
  end.

(** Truthiness of a [string | null]. *)
Definition truthy (s : option string) : bool :=
  match s with
  | Some (String _ _) => true
  | _ => false
  end.

(** [String(n)] for an integer. *)
Definition string_of_Z (n : Z) : string := NilZero.string_of_int (Z.to_int n).

(** The message of the error thrown when the block height has passed the
    last valid one. *)
Definition expiredMessage (i currentBlockHeight lastValidBlockHeight : Z) : string :=
  ("Transaction " ++ string_of_Z (i + 1)
   ++ " has expired: current block height " ++ string_of_Z currentBlockHeight
   ++ " exceeds last valid block height " ++ string_of_Z lastValidBlockHeight)%string.

(** ** The connection *)

(** The answer of [getSignatureStatus], as far as
    [status?.value?.confirmationStatus] reads it. *)
Record SignatureStatus : Type := mkSignatureStatus {
  confirmationStatus : option string
}.

Record RpcResponse : Type := mkRpcResponse {
  value : option SignatureStatus
}.

(** [status?.value?.confirmationStatus === "finalized"] *)
Definition isFinalized (status : option RpcResponse) : bool :=
  match status with
  | Some {| value := Some {| confirmationStatus := Some c |} |} =>
      String.eqb c "finalized"
  | _ => false
  end.

(** The network as the code meets it: every operation answers from the
    current state of the world, with a value or a thrown one, and leaves a
    new state; [setTimeout] is the passing of time. *)
Class Connection {L : LedgerClient} (World : Type) : Type := {
  getLatestBlockhash : World -> completion (string * Z) * World;
  getBlockHeight : World -> completion Z * World;
  sendAndConfirmTransaction :
    Transaction -> list Keypair -> string -> World -> completion string * World;
  getSignatureStatus :
    string -> bool -> World -> completion (option RpcResponse) * World;
  setTimeout : Z -> World -> World
}.

(** [PromiseSettledResult<string>] *)
Inductive Settled : Type :=
| Fulfilled (value : string)
| Rejected (reason : JsError).

(** What a run does, in order.  [Attempt] is the first line of the [try]
    block (the console line announcing an attempt); [Push] is
    [results.push]. *)
Inductive Action {L : LedgerClient} : Type :=
| Attempt (attempt : Z)
| GetLatestBlockhash (r : completion (string * Z))
| GetBlockHeight (r : completion Z)
| Send (transaction : Transaction) (r : completion string)
| GetSignatureStatus (signature : string) (r : completion (option RpcResponse))
| Delay (ms : Z)
| Push (s : Settled).

(** An action with the index of the transaction being processed. *)
Abbreviation Event := (Z * Action)%type.

Section Submission.
Context {L : LedgerClient} {World : Type} {C : Connection World}.

(** The state of a run: the world, the actions so far, [results], and the
    variables of the current iteration of the [for] loop. *)
Record Machine : Type := mkMachine {
  world : World;
  trace : list Event;
  results : list Settled;
  attempt : Z;
  success : bool;
  signature : option string;
  transaction : Transaction
}.

Definition set_world (w : World) (m : Machine) : Machine :=
  mkMachine w (trace m) (results m) (attempt m) (success m) (signature m) (transaction m).
Definition emit (e : Event) (m : Machine) : Machine :=
  mkMachine (world m) (trace m ++ [e]) (results m) (attempt m) (success m) (signature m) (transaction m).
Definition set_results (r : list Settled) (m : Machine) : Machine :=
  mkMachine (world m) (trace m) r (attempt m) (success m) (signature m) (transaction m).
Definition set_attempt (a : Z) (m : Machine) : Machine :=
  mkMachine (world m) (trace m) (results m) a (success m) (signature m) (transaction m).
Definition set_success (b : bool) (m : Machine) : Machine :=
  mkMachine (world m) (trace m) (results m) (attempt m) b (signature m) (transaction m).
Definition set_signature (s : option string) (m : Machine) : Machine :=
  mkMachine (world m) (trace m) (results m) (attempt m) (success m) s (transaction m).
Definition set_transaction (t : Transaction) (m : Machine) : Machine :=
  mkMachine (world m) (trace m) (results m) (attempt m) (success m) (signature m) t.

(** Computations over the machine: [None] is a loop out of fuel, [Abrupt]
    an exception on its way out. *)
Definition M (A : Type) : Type := Machine -> option (completion A * Machine).

Definition ret {A : Type} (a : A) : M A := fun m => Some (Normal a, m).

Definition bind {A B : Type} (c : M A) (k : A -> M B) : M B :=
  fun m =>
    match c m with
    | None => None
    | Some (Normal a, m') => k a m'
    | Some (Abrupt e, m') => Some (Abrupt e, m')
    end.

Definition throw {A : Type} (e : JsError) : M A := fun m => Some (Abrupt e, m).

Definition tryCatch {A : Type} (c : M A) (handler : JsError -> M A) : M A :=
  fun m =>
    match c m with
    | Some (Abrupt e, m') => handler e m'
    | r => r
    end.

Definition gets {A : Type} (f : Machine -> A) : M A := fun m => Some (Normal (f m), m).

Definition modify (f : Machine -> Machine) : M unit := fun m => Some (Normal tt, f m).

Notation "x <- c ;; k" := (bind c (fun x => k))
  (at level 61, c at next level, right associativity).
Notation "c ;; k" := (bind c (fun _ => k))
  (at level 61, right associativity).

(** An awaited call of the connection: the world answers, the call and its
    answer are recorded, a rejection is thrown. *)
Definition await {A : Type} (i : Z) (call : World -> completion A * World)
    (record : completion A -> Action) : M A :=
  fun m =>
    let (r, w) := call (world m) in
    Some (r, emit (i, record r) (set_world w m)).

(** [await new Promise(resolve => setTimeout(resolve, ms))] *)
Definition sleep (i : Z) (ms : Z) : M unit :=
  modify (fun m => emit (i, Delay ms) (set_world (setTimeout ms (world m)) m)).

(** [results.push(s)] *)
Definition push (i : Z) (s : Settled) : M unit :=
  modify (fun m => emit (i, Push s) (set_results (results m ++ [s]) m)).

(** The [try] block of one attempt. *)
Definition tryBlock (i : Z) (payer : Keypair) : M bool :=
  a <- gets attempt ;;
  modify (emit (i, Attempt a)) ;;
  latest <- await i getLatestBlockhash GetLatestBlockhash ;;
  let (blockhash, lastValidBlockHeight) := latest : string * Z in
  modify (fun m =>
    set_transaction
      {| instructions := instructions (transaction m);
         recentBlockhash := Some blockhash |} m) ;;
  currentBlockHeight <- await i getBlockHeight GetBlockHeight ;;
  (if currentBlockHeight >? lastValidBlockHeight
   then throw (newError (expiredMessage i currentBlockHeight lastValidBlockHeight))
   else ret tt) ;;
  t <- gets transaction ;;
  sig <- await i (sendAndConfirmTransaction t [payer] "finalized") (Send t) ;;
  modify (set_signature (Some sig)) ;;
  modify (set_success true) ;;
  push i (Fulfilled sig) ;;
  ret false.

(** The end of the [catch] block: count the attempt, then give up or
    wait. *)
Definition countAttempt (i maxRetries : Z) (error : JsError) : M bool :=
  modify (fun m => set_attempt (attempt m + 1) m) ;;
  a <- gets attempt ;;
  (if a >? maxRetries
   then push i (Rejected error)
   else sleep i TX_INTERVAL) ;;
  ret false.

(** Ask for the status of [sig]; on [finalized] record the success and
    [break] (the result [true]), otherwise go on with [otherwise]. *)
Definition checkStatus (i : Z) (sig : string) (otherwise : M bool) : M bool :=
  status <- await i (getSignatureStatus sig true) (GetSignatureStatus sig) ;;
  if isFinalized status
  then modify (set_success true) ;; push i (Fulfilled sig) ;; ret true
  else otherwise.

(** The [catch] block of one attempt; [true] is [break]. *)
Definition catchBlock (i maxRetries : Z) (error : JsError) : M bool :=
  sig <- gets signature ;;
  if isTransactionExpiredBlockheightExceededError error && truthy sig
  then
    match sig with
    | Some s => checkStatus i s (countAttempt i maxRetries error)
    | None => countAttempt i maxRetries error
    end
  else if isErrorWithMessage error
  then
    if truthy (errorSignature error)
    then
      match errorSignature error with
      | Some s => checkStatus i s (countAttempt i maxRetries error)
      | None => countAttempt i maxRetries error
      end
    else countAttempt i maxRetries error
  else countAttempt i maxRetries error.

(** One round of the [while] loop; [true] is [break]. *)
Definition whileBody (i maxRetries : Z) (payer : Keypair) : M bool :=
  tryCatch (tryBlock i payer) (catchBlock i maxRetries).

(** [while (attempt <= maxRetries && !success)] *)
Fixpoint whileLoop (fuel : nat) (i maxRetries : Z) (payer : Keypair) : M unit :=
  fun m =>
    match fuel with
    | O => None
    | S fuel' =>
        if (attempt m <=? maxRetries) && negb (success m)
        then
          (broke <- whileBody i maxRetries payer ;;
           if broke : bool then ret tt
           else whileLoop fuel' i maxRetries payer) m
        else ret tt m
    end.

(** The body of the [for] loop for the entry [(i, t)] of a list of length
    [len]. *)
Definition forBody (fuel : nat) (len maxRetries : Z) (payer : Keypair)
    (i : Z) (t : Transaction) : M unit :=
  modify (fun m =>
    set_transaction t (set_signature None (set_success false (set_attempt 0 m)))) ;;
  whileLoop fuel i maxRetries payer ;;
  (if i <? len - 1 then sleep i TX_INTERVAL else ret tt).

(** [for (const [i, transaction] of transactionList.entries())], from
    entry [i] on. *)
Fixpoint forLoop (fuel : nat) (len maxRetries : Z) (payer : Keypair)
    (i : Z) (entries : list Transaction) : M unit :=
  match entries with
  | [] => ret tt
  | t :: rest =>
      forBody fuel len maxRetries payer i t ;;
      forLoop fuel len maxRetries payer (i + 1) rest
  end.

(** The state in which a run starts in the world [w]. *)
Definition start (w : World) : Machine :=
  mkMachine w [] [] 0 false None newTransaction.

(** [executeTransactions(solanaConnection, transactionList, payer,
    maxRetries)] in the world [w]: how the promise settles, and the final
    state. *)
Definition executeTransactions (fuel : nat) (w : World)
    (transactionList : list Transaction) (payer : Keypair) (maxRetries : Z)
  : option (completion (list Settled) * Machine) :=
  (forLoop fuel (Z.of_nat (length transactionList)) maxRetries payer 0
     transactionList ;;
   gets results) (start w).

End Submission.

Arguments Machine {L} World.
Arguments M {L} World A.

(** ** Vocabulary of the statements *)

Section Vocabulary.
Context {L : LedgerClient} {World : Type} {C : Connection World}.

(** The batches the loop is to produce: [d] slices of width [c]. *)
Fixpoint slices (d c : nat) (l : list TransactionInstruction) : list Transaction :=
  match d with
  | O => []
  | S d' =>
      {| instructions := firstn c l; recentBlockhash := None |}
      :: slices d' c (skipn c l)
  end.

(** The transaction of the state with the block hash [bh] attached. *)
Definition stamped (m : Machine World) (bh : string) : Transaction :=
  {| instructions := instructions (transaction m); recentBlockhash := Some bh |}.

(** The state after the end of the [catch] block: the attempt is counted,
    and the transaction is rejected or a delay passes. *)
Definition counted (i maxRetries : Z) (error : JsError) (m : Machine World)
  : Machine World :=
  if attempt m + 1 >? maxRetries
  then mkMachine (world m) (trace m ++ [(i, Push (Rejected error))])
         (results m ++ [Rejected error])
         (attempt m + 1) (success m) (signature m) (transaction m)
  else mkMachine (setTimeout TX_INTERVAL (world m))
         (trace m ++ [(i, Delay TX_INTERVAL)]) (results m)
         (attempt m + 1) (success m) (signature m) (transaction m).

(** The state in which the [while] loop of the entry [(i, t)] starts. *)
Definition entered (t : Transaction) (m : Machine World) : Machine World :=
  mkMachine (world m) (trace m) (results m) 0 false None t.

(** The answers of the submissions of a trace, in order. *)
Definition submissions (tr : list Event) : list (completion string) :=
  flat_map (fun ev => match snd ev with Send _ r => [r] | _ => [] end) tr.

(** The signatures whose status a trace asks for, in order. *)
Definition lookups (tr : list Event) : list string :=
  flat_map (fun ev => match snd ev with GetSignatureStatus s _ => [s] | _ => [] end) tr.

(** The attempts a trace announces, in order. *)
Definition attempts (tr : list Event) : list Z :=
  flat_map (fun ev => match snd ev with Attempt a => [a] | _ => [] end) tr.

(** The outcomes a trace pushes, each with the index of its transaction. *)
Definition pushes (tr : list Event) : list (Z * Settled) :=
  flat_map (fun ev => match snd ev with Push s => [(fst ev, s)] | _ => [] end) tr.


(** Events of the transaction [i] none of which pushes an outcome. *)
Definition quiet (i : Z) (tr : list Event) : Prop :=
  Forall (fun ev => fst ev = i /\ forall s, snd ev <> Push s) tr.

(** From [m] to [m'] by the events [tr], the outcome [s] was pushed, last. *)
Definition settles (i : Z) (m m' : Machine World) (tr : list Event)
    (s : Settled) : Prop :=
  results m' = results m ++ [s]
  /\ exists body, tr = body ++ [(i, Push s)] /\ quiet i body.

(** From [m] to [m'] by the events [tr], nothing was pushed and the last
    event is a status lookup that threw [e]. *)
Definition raises (i : Z) (m m' : Machine World) (tr : list Event)
    (e : JsError) : Prop :=
  results m' = results m
  /\ exists sig body,
       tr = body ++ [(i, GetSignatureStatus sig (Abrupt e))]
       /\ quiet i body
       /\ exists w w', getSignatureStatus sig true w = (Abrupt e, w').

(** From [m] to [m'] by the events [tr], the attempt was counted and
    another one is due. *)
Definition retries (i maxRetries : Z) (m m' : Machine World)
    (tr : list Event) : Prop :=
  results m' = results m
  /\ attempt m' = attempt m + 1
  /\ attempt m' <= maxRetries
  /\ success m' = success m
  /\ quiet i tr.

(** The three ways a round of the retry loop can end. *)
Definition roundEnds (i maxRetries : Z) (m : Machine World)
    (r : option (completion bool * Machine World)) : Prop :=
  exists c m' tr,
    r = Some (c, m')
    /\ trace m' = trace m ++ tr
    /\ match c with
       | Normal b =>
           (exists s, settles i m m' tr s
                      /\ (b = true \/ success m' = true \/ attempt m' > maxRetries))
           \/ (b = false /\ retries i maxRetries m m' tr)
       | Abrupt e => raises i m m' tr e
       end.

(** The events after the outcome of the entry [i]: the delay before the
    next entry. *)
Definition pause (len i : Z) : list Event :=
  if i <? len - 1 then [(i, Delay TX_INTERVAL)] else [].

(** The trace of a run over entries [i], [i + 1], ... with the outcomes
    [rs]: for each entry in turn, quiet events of that entry, the push of its
    outcome, and the delay before the next entry. *)
Inductive Segments (len : Z) : Z -> list Settled -> list Event -> Prop :=
| Segments_nil (i : Z) : Segments len i [] []
| Segments_cons (i : Z) (s : Settled) (rs : list Settled)
    (body rest : list Event) :
    quiet i body ->
    Segments len (i + 1) rs rest ->
    Segments len i (s :: rs) (body ++ (i, Push s) :: pause len i ++ rest).

(** [rs] with the indices [i], [i + 1], ... *)
Fixpoint indexed (i : Z) (rs : list Settled) : list (Z * Settled) :=
  match rs with
  | [] => []
  | s :: rest => (i, s) :: indexed (i + 1) rest
  end.

(** Strictly sequential processing: when the transaction [j] is submitted,
    every transaction before it has its outcome, and [j] has none yet. *)
Definition Sequential (tr : list Event) : Prop :=
  forall pre j t r post,
    tr = pre ++ (j, Send t r) :: post ->
    (forall i, 0 <= i < j -> exists s, In (i, Push s) pre)
    /\ (forall s, ~ In (j, Push s) pre).

End Vocabulary.

(** ** A client and a scripted network, for concrete runs *)

(** A [RangeError] with the message [msg]. *)
Definition rangeError (msg : string) : JsError :=
  {| err_name := Some "RangeError"; err_signature := None;
     err_message := Some msg |}.

(** Whether a number from [0] up is an integer: below [2^52] adding and
    subtracting [2^52] rounds it to an integer, and from [2^52] on every
    double is one. *)
Definition wholeNumber (x : float) : bool :=
  if PrimFloat.ltb x 4503599627370496
  then PrimFloat.eqb
         (PrimFloat.sub (PrimFloat.add x 4503599627370496) 4503599627370496) x
  else true.

(** Keys are their strings; the empty string is not a key.  An instruction
    is the parameters it was built from, and a transfer is accepted when
    its lamports are an integer from [0] to [2^64 - 1]. *)
#[local] Instance sampleClient : LedgerClient := {|
  PublicKey := string;
  newPublicKey := fun s =>
    match s with
    | EmptyString => Abrupt (newError "Invalid public key input")
    | _ => Normal s
    end;
  Keypair := unit;
  LAMPORTS_PER_SOL := 1000000000%float;
  TransactionInstruction := TransferParams string;
  SystemProgram_transfer := fun p =>
    if PrimFloat.leb 0 (lamports p)
       && PrimFloat.ltb (lamports p) 18446744073709551616
    then
      if wholeNumber (lamports p) then Normal p
      else Abrupt (rangeError "The number is not an integer")
    else Abrupt (rangeError "The value is out of range")
|}.

(** A network that answers from a script: fixed answers for the block hash
    and the height, the answers of the successive submissions ([sendLater]
    once the list is used up), and a status for every signature. *)
Record Script : Type := mkScript {
  latestAnswer : completion (string * Z);
  heightAnswer : completion Z;
  sendAnswers : list (completion string);
  sendLater : completion string;
  statusAnswer : string -> completion (option RpcResponse)
}.

#[local] Instance scriptConnection : Connection Script := {|
  getLatestBlockhash := fun w => (latestAnswer w, w);
  getBlockHeight := fun w => (heightAnswer w, w);
  sendAndConfirmTransaction := fun _ _ _ w =>
    match sendAnswers w with
    | [] => (sendLater w, w)
    | r :: rest =>
        (r, mkScript (latestAnswer w) (heightAnswer w) rest (sendLater w)
              (statusAnswer w))
    end;
  getSignatureStatus := fun sig _ w => (statusAnswer w sig, w);
  setTimeout := fun _ w => w
|}.

Definition finalized : option RpcResponse :=
  Some {| value := Some {| confirmationStatus := Some "finalized" |} |}.

Definition confirmed : option RpcResponse :=
  Some {| value := Some {| confirmationStatus := Some "confirmed" |} |}.

(** The expiry error of the client library for the signature [sig], with
    the message [msg]. *)
Definition expiredError (sig msg : string) : JsError :=
  {| err_name := Some expiredName;
     err_signature := Some sig;
     err_message := Some msg |}.

Definition sampleDrops : list Drop :=
  [ mkDrop "ownerA" "mintA"; mkDrop "ownerB" "mintB"; mkDrop "ownerC" "mintC" ].

Definition sampleTransaction : @Transaction sampleClient :=
  {| instructions :=
       [ mkTransferParams "payer" "ownerA" 3000000000%float ];
     recentBlockhash := None |}.

(** Every submission is confirmed at once. *)
Definition accepting : Script :=
  mkScript (Normal ("hashA", 100)) (Normal 90) [] (Normal "sig1")
    (fun _ => Normal None).

(** Every submission fails with a message that names a signature, and that
    signature is final. *)
Definition landed : Script :=
  mkScript (Normal ("hashA", 100)) (Normal 90) []
    (Abrupt (newError "Signature abc123 was not confirmed in 30 seconds"))
    (fun _ => Normal finalized).

(** The block height is past the last valid one. *)
Definition late : Script :=
  mkScript (Normal ("hashA", 100)) (Normal 101) [] (Normal "sig1")
    (fun _ => Normal None).

(** Every submission expires, and no signature is ever final. *)
Definition expiring : Script :=
  mkScript (Normal ("hashA", 100)) (Normal 90) []
    (Abrupt (expiredError "sigA"
               "Signature sigA has expired: block height exceeded."))
    (fun _ => Normal confirmed).

(** Every submission expires with the error the client library throws for
    ["sigA"], whose message names the signature; the status of ["sigA"] is
    [finalized]. *)
Definition expiredLanded : Script :=
  mkScript (Normal ("hashA", 100)) (Normal 90) []
    (Abrupt (expiredError "sigA"
               "Signature sigA has expired: block height exceeded."))
    (fun _ => Normal finalized).

(** A submission expires with the typed error, whose [signature] is
    ["sigA"] and whose message does not repeat it; the status of ["sigA"]
    is [finalized]. *)
Definition expiredButFinal : Script :=
  mkScript (Normal ("hashA", 100)) (Normal 90) []
    (Abrupt (expiredError "sigA" "block height exceeded"))
    (fun _ => Normal finalized).

(** Every submission fails with a message that names a signature, and the
    status lookup fails too. *)
Definition statusDown : Script :=
  mkScript (Normal ("hashA", 100)) (Normal 90) []
    (Abrupt (newError "Signature abc123 was not confirmed in 30 seconds"))
    (fun _ => Abrupt (newError "503 Service Unavailable")).

(** The first submission is confirmed, the later ones fail with a message
    that names a signature, and the status lookup fails. *)
Definition statusDownLater : Script :=
  mkScript (Normal ("hashA", 100)) (Normal 90) [Normal "sig1"]
    (Abrupt (newError "Signature abc123 was not confirmed in 30 seconds"))
    (fun _ => Abrupt (newError "503 Service Unavailable")).

(** ** Ingestion: delay, retry, retrieve, handler *)

(** An entry of [data.result.nfts], as far as [handler] reads it. *)
Record Nft : Type := mkNft {
  nft_owner : string;
  nft_mint : string
}.

(** [data.result], as far as [handler] reads it; an answer without these
    fields is outside the model. *)
Record CollectionPage : Type := mkCollectionPage {
  total_pages : Z;
  nfts : list Nft
}.

(** [response.data] *)
Record ResponseData : Type := mkResponseData {
  result : CollectionPage
}.

(** The response of [axios.get]. *)
Record AxiosResponse : Type := mkAxiosResponse {
  data : ResponseData
}.

(** The arguments of [axios.get]: the address, the [x-api-key] header and
    the query parameters. *)
Record Request : Type := mkRequest {
  req_url : string;
  req_api_key : option string;
  req_page : Z;
  req_size : Z;
  req_collection_address : string;
  req_network : string
}.

(** The indexing service as the code meets it: the key of the environment,
    the answer to a request from the current state of the world, and the
    passing of time. *)
Class Indexer (World : Type) : Type := {
  SHYFT_KEY : option string;
  axios_get : Request -> World -> completion AxiosResponse * World;
  elapse : Q -> World -> World
}.

(** [page <= total], where [total] starts as [Infinity]. *)
Definition le_jsnum (i : Z) (x : jsnum) : bool :=
  match x with
  | Num z => i <=? z
  | Infinity => true
  | NaN => false
  end.

(** [500 * 2 ** (5 - retries)]: a fraction when [retries] is above 5
    (exact in doubles as long as the power of two neither overflows nor
    underflows). *)
Definition backoff (retries : Z) : Q :=
  Qmult (inject_Z 500) (Qpower (inject_Z 2) (5 - retries)).

(** What the ingestion does, in order. *)
Inductive IEvent : Type :=
| Get (req : Request) (r : completion AxiosResponse)
| Wait (ms : Q).

Section Ingestion.
Context {World : Type} {I : Indexer World}.

(** The state of the ingestion: the world and the events so far. *)
Record IState : Type := mkIState {
  iworld : World;
  ilog : list IEvent
}.

(** Computations of the ingestion: [None] is a loop out of fuel. *)
Definition IM (A : Type) : Type := IState -> option (completion A * IState).

Definition iret {A : Type} (a : A) : IM A := fun s => Some (Normal a, s).

Definition ibind {A B : Type} (c : IM A) (k : A -> IM B) : IM B :=
  fun s =>
    match c s with
    | None => None
    | Some (Normal a, s') => k a s'
    | Some (Abrupt e, s') => Some (Abrupt e, s')
    end.

(** [await axios.get(...)] *)
Definition axiosGet (req : Request) : IM AxiosResponse :=
  fun s =>
    let (r, w) := axios_get req (iworld s) in
    Some (r, mkIState w (ilog s ++ [Get req r])).

(** [delay(ms)]: the promise resolves after [ms]; the message is not
    used. *)
Definition delay (ms : Q) : IM unit :=
  fun s => Some (Normal tt, mkIState (elapse ms (iworld s)) (ilog s ++ [Wait ms])).

(** [retry(cb, retries)]: [if (retries)] holds for every number but zero,
    and the recursive call is made with [--retries]. *)
Fixpoint retry {A : Type} (fuel : nat) (cb : IM A) (retries : Z) : IM A :=
  fun s =>
    match fuel with
    | O => None
    | S fuel' =>
        match cb s with
        | None => None
        | Some (Normal r, s') => Some (Normal r, s')
        | Some (Abrupt error, s') =>
            if negb (retries =? 0)
            then ibind (delay (backoff retries))
                   (fun _ => retry fuel' cb (retries - 1)) s'
            else Some (Abrupt error, s')
        end
    end.

(** The request [retrieve] makes for a page. *)
Definition pageRequest (page : Z) (collection network : string) : Request :=
  {| req_url := "https://api.shyft.to/sol/v1/collections/get_nfts";
     req_api_key := SHYFT_KEY;
     req_page := page;
     req_size := 50;
     req_collection_address := collection;
     req_network :=
       if String.eqb "devnet" network then "devnet" else "mainnet-beta" |}.

(** The callback of [retrieve]: one request, answered by its [data]. *)
Definition fetchPage (req : Request) : IM ResponseData :=
  ibind (axiosGet req) (fun response => iret (data response)).

(** [retrieve(page, collection, network)], with the default five
    retries. *)
Definition retrieve (fuel : nat) (page : Z) (collection network : string)
  : IM ResponseData :=
  retry fuel (fetchPage (pageRequest page collection network)) 5.

(** [nft => ({ owner: nft.owner, address: nft.mint })] *)
Definition toDrop (nft : Nft) : Drop :=
  {| owner := nft_owner nft; address := nft_mint nft |}.

(** The loop [while (page <= total)] of [handler]: [n] bounds the rounds,
    [fuel] is what each [retrieve] gets. *)
Fixpoint pageLoop (n fuel : nat) (collection : string) (page : Z)
    (total : jsnum) (acc : list Drop) : IM (list Drop) :=
  match n with
  | O => fun _ => None
  | S n' =>
      if le_jsnum page total
      then ibind (retrieve fuel page collection "mainnet")
             (fun d =>
                pageLoop n' fuel collection (page + 1)
                  (Num (total_pages (result d)))
                  (acc ++ map toDrop (nfts (result d))))
      else iret acc
  end.

(** [handler(collection)] *)
Definition handler (fuel : nat) (collection : string) : IM (list Drop) :=
  pageLoop fuel fuel collection 1 Infinity [].

End Ingestion.

Arguments IState World : clear implicits.
Arguments IM World A : clear implicits.

(** ** The shape of the traces of a run *)

Section TraceShape.
Context {L : LedgerClient}.

(** How a round of the retry loop ends. *)
Inductive RoundEnd : Type :=
| Settles (s : Settled)
| Retries
| Throws (e : JsError).

(** How the retry loop of a transaction ends; [Nothing] is a loop that is
    never entered. *)
Inductive LoopEnd : Type :=
| Outcome (s : Settled)
| Escapes (e : JsError)
| Nothing.

(** The outcomes a loop pushes. *)
Definition outcomes (x : LoopEnd) : list Settled :=
  match x with
  | Outcome s => [s]
  | _ => []
  end.

(** The error an action reports, if it failed. *)
Definition failure (a : Action) : option JsError :=
  match a with
  | GetLatestBlockhash (Abrupt e) => Some e
  | GetBlockHeight (Abrupt e) => Some e
  | Send _ (Abrupt e) => Some e
  | _ => None
  end.

(** The end of the [catch] block in the attempt [a]: the transaction is
    rejected when the attempts are used up, or the delay passes. *)
Inductive CountTrace (i maxRetries a : Z) (error : JsError)
  : list Event -> RoundEnd -> Prop :=
| Count_reject :
    a + 1 > maxRetries ->
    CountTrace i maxRetries a error
      [(i, Push (Rejected error))] (Settles (Rejected error))
| Count_delay :
    a + 1 <= maxRetries ->
    CountTrace i maxRetries a error [(i, Delay TX_INTERVAL)] Retries.

(** The [catch] block in the attempt [a], for the caught [error]: a status
    is looked up only for a signature read from the message. *)
Inductive CatchTrace (i maxRetries a : Z) (error : JsError)
  : list Event -> RoundEnd -> Prop :=
| Catch_count tr x :
    errorSignature error = None ->
    CountTrace i maxRetries a error tr x ->
    CatchTrace i maxRetries a error tr x
| Catch_finalized s st :
    errorSignature error = Some s ->
    isFinalized st = true ->
    CatchTrace i maxRetries a error
      [(i, GetSignatureStatus s (Normal st)); (i, Push (Fulfilled s))]
      (Settles (Fulfilled s))
| Catch_not_finalized s st tr x :
    errorSignature error = Some s ->
    isFinalized st = false ->
    CountTrace i maxRetries a error tr x ->
    CatchTrace i maxRetries a error
      ((i, GetSignatureStatus s (Normal st)) :: tr) x
| Catch_lookup_throws s e :
    errorSignature error = Some s ->
    CatchTrace i maxRetries a error
      [(i, GetSignatureStatus s (Abrupt e))] (Throws e).

(** One round of the retry loop, in the attempt [a], for a transaction with
    the instructions [ins]. *)
Inductive RoundTrace (i maxRetries : Z) (ins : list TransactionInstruction)
    (a : Z) : list Event -> RoundEnd -> Prop :=
| Round_latest_throws e tr x :
    CatchTrace i maxRetries a e tr x ->
    RoundTrace i maxRetries ins a
      ([(i, Attempt a); (i, GetLatestBlockhash (Abrupt e))] ++ tr) x
| Round_height_throws bh lvh e tr x :
    CatchTrace i maxRetries a e tr x ->
    RoundTrace i maxRetries ins a
      ([(i, Attempt a); (i, GetLatestBlockhash (Normal (bh, lvh)));
        (i, GetBlockHeight (Abrupt e))] ++ tr) x
| Round_expired bh lvh h tr x :
    h > lvh ->
    CountTrace i maxRetries a (newError (expiredMessage i h lvh)) tr x ->
    RoundTrace i maxRetries ins a
      ([(i, Attempt a); (i, GetLatestBlockhash (Normal (bh, lvh)));
        (i, GetBlockHeight (Normal h))] ++ tr) x
| Round_send_throws bh lvh h e tr x :
    h <= lvh ->
    CatchTrace i maxRetries a e tr x ->
    RoundTrace i maxRetries ins a
      ([(i, Attempt a); (i, GetLatestBlockhash (Normal (bh, lvh)));
        (i, GetBlockHeight (Normal h));
        (i, Send {| instructions := ins; recentBlockhash := Some bh |}
              (Abrupt e))] ++ tr) x
| Round_send_returns bh lvh h sig :
    h <= lvh ->
    RoundTrace i maxRetries ins a
      [(i, Attempt a); (i, GetLatestBlockhash (Normal (bh, lvh)));
       (i, GetBlockHeight (Normal h));
       (i, Send {| instructions := ins; recentBlockhash := Some bh |}
             (Normal sig));
       (i, Push (Fulfilled sig))]
      (Settles (Fulfilled sig)).

(** The retry loop of a transaction from the attempt [a] on. *)
Inductive LoopTrace (i maxRetries : Z) (ins : list TransactionInstruction)
  : Z -> list Event -> LoopEnd -> Prop :=
| Loop_skipped a :
    a > maxRetries ->
    LoopTrace i maxRetries ins a [] Nothing
| Loop_settles a tr s :
    a <= maxRetries ->
    RoundTrace i maxRetries ins a tr (Settles s) ->
    LoopTrace i maxRetries ins a tr (Outcome s)
| Loop_throws a tr e :
    a <= maxRetries ->
    RoundTrace i maxRetries ins a tr (Throws e) ->
    LoopTrace i maxRetries ins a tr (Escapes e)
| Loop_retries a tr tr' x :
    a <= maxRetries ->
    RoundTrace i maxRetries ins a tr Retries ->
    LoopTrace i maxRetries ins (a + 1) tr' x ->
    LoopTrace i maxRetries ins a (tr ++ tr') x.

(** A run over the entries [i], [i + 1], ... of a list of length [len]:
    its trace, the outcomes pushed, and the error it rejects with, if any. *)
Inductive RunTrace (len maxRetries : Z)
  : Z -> list Transaction -> list Event -> list Settled -> option JsError
    -> Prop :=
| Run_done i : RunTrace len maxRetries i [] [] [] None
| Run_entry i t rest tr x tr' rs oe :
    LoopTrace i maxRetries (instructions t) 0 tr x ->
    (forall e, x <> Escapes e) ->
    RunTrace len maxRetries (i + 1) rest tr' rs oe ->
    RunTrace len maxRetries i (t :: rest)
      (tr ++ pause len i ++ tr') (outcomes x ++ rs) oe
| Run_escapes i t rest tr e :
    LoopTrace i maxRetries (instructions t) 0 tr (Escapes e) ->
    RunTrace len maxRetries i (t :: rest) tr [] (Some e).

(** The attempts of the transaction [j] that a trace announces. *)
Definition attemptsOf (j : Z) (tr : list Event) : list Z :=
  attempts (filter (fun ev => fst ev =? j) tr).

(** [0; 1; ...; k - 1] *)
Definition upto (k : nat) : list Z := map Z.of_nat (seq 0 k).

End TraceShape.

(** A string all of whose characters are word characters. *)
Fixpoint all_word (s : string) : bool :=
  match s with
  | EmptyString => true
  | String c s' => is_word_char c && all_word s'
  end.

(** Whether [s] starts with a word character. *)
Definition starts_with_word (s : string) : bool :=
  match s with
  | EmptyString => false
  | String c _ => is_word_char c
  end.

(** The pages [1], ..., [n]. *)
Definition pagesTo (n : nat) : list Z := map Z.of_nat (seq 1 n).

(** [r; r - 1; ...]: the values of [retries] in [k] successive calls of
    [retry]. *)
Fixpoint countdown (k : nat) (r : Z) : list Z :=
  match k with
  | O => []
  | S k' => r :: countdown k' (r - 1)
  end.

Section IngestionVocabulary.
Context {World : Type} {I : Indexer World}.

(** The requests of a log, in order. *)
Definition requests (log : list IEvent) : list Request :=
  flat_map (fun ev => match ev with Get req _ => [req] | _ => [] end) log.

(** The answers of the requests of a log, in order. *)
Definition answers (log : list IEvent) : list (completion AxiosResponse) :=
  flat_map (fun ev => match ev with Get _ r => [r] | _ => [] end) log.

(** The waits of a log, in order. *)
Definition waits (log : list IEvent) : list Q :=
  flat_map (fun ev => match ev with Wait ms => [ms] | _ => [] end) log.

(** The request [req] fails [k] times, whatever time passes in between, and
    is then answered by [d]. *)
Fixpoint FailsThen (req : Request) (k : nat) (d : AxiosResponse) (w : World)
  : Prop :=
  match k with
  | O => exists w', axios_get req w = (Normal d, w')
  | S k' =>
      exists e w',
        axios_get req w = (Abrupt e, w')
        /\ forall ms, FailsThen req k' d (elapse ms w')
  end.

(** Worlds in [Inv] fail every request, and stay in [Inv] while time
    passes. *)
Definition AlwaysFails (Inv : World -> Prop) : Prop :=
  forall req w,
    Inv w ->
    exists e w', axios_get req w = (Abrupt e, w') /\ forall ms, Inv (elapse ms w').

(** Worlds in [Inv] answer the request for every page of [collection] at
    once, with [total] pages and the entries [content page]. *)
Definition Serves (Inv : World -> Prop) (collection : string) (total : Z)
    (content : Z -> list Nft) : Prop :=
  forall page w,
    Inv w ->
    exists w',
      axios_get (pageRequest page collection "mainnet") w
      = (Normal (mkAxiosResponse
                   (mkResponseData (mkCollectionPage total (content page)))),
         w')
      /\ Inv w'.

End IngestionVocabulary.

(** An indexing service that answers from a script: the answers of the
    successive requests, then [laterAnswer]. *)
Record Feed : Type := mkFeed {
  feedAnswers : list (completion AxiosResponse);
  laterAnswer : Request -> completion AxiosResponse
}.

#[local] Instance feedIndexer : Indexer Feed := {|
  SHYFT_KEY := Some "key";
  axios_get := fun req w =>
    match feedAnswers w with
    | [] => (laterAnswer w req, w)
    | r :: rest => (r, mkFeed rest (laterAnswer w))
    end;
  elapse := fun _ w => w
|}.

(** A page of a collection of [total] pages holding one entry, named after
    the page. *)
Definition samplePage (total : Z) (page : Z) : AxiosResponse :=
  mkAxiosResponse
    (mkResponseData
       (mkCollectionPage total
          [mkNft ("owner" ++ string_of_Z page) ("mint" ++ string_of_Z page)])).

Section RoundStates.
Context {L : LedgerClient} {World : Type} {C : Connection World}.

(** What a round that ends as [x] leaves: from [m] to [m'] by the events
    [tr], with the completion [c] of the round. *)
Definition roundPost (maxRetries : Z) (m m' : Machine World)
    (c : completion bool) (tr : list Event) (x : RoundEnd) : Prop :=
  trace m' = trace m ++ tr
  /\ instructions (transaction m') = instructions (transaction m)
  /\ match x with
     | Settles s =>
         results m' = results m ++ [s]
         /\ exists b, c = Normal b
                      /\ (b = true \/ success m' = true \/ attempt m' > maxRetries)
     | Retries =>
         c = Normal false
         /\ results m' = results m
         /\ attempt m' = attempt m + 1
         /\ success m' = success m
         /\ signature m' = signature m
     | Throws e => c = Abrupt e /\ results m' = results m
     end.

End RoundStates.

Section EventProperties.
Context {L : LedgerClient}.

(** A submission comes right after the fetch of a block hash and of a block
    height within its validity, and carries that block hash. *)
Definition freshSend (ins : list TransactionInstruction) (pre : list Event)
    (ev : Event) : Prop :=
  forall t r,
    snd ev = Send t r ->
    exists pre' bh lvh h,
      pre = pre' ++ [(fst ev, GetLatestBlockhash (Normal (bh, lvh)));
                     (fst ev, GetBlockHeight (Normal h))]
      /\ h <= lvh
      /\ t = {| instructions := ins; recentBlockhash := Some bh |}.

(** An outcome [Fulfilled] comes right after the submission that returned
    its signature, or after a status lookup that reported that signature
    [finalized]. *)
Definition evidenced (ins : list TransactionInstruction) (pre : list Event)
    (ev : Event) : Prop :=
  forall s,
    snd ev = Push (Fulfilled s) ->
    exists pre' a,
      pre = pre' ++ [(fst ev, a)]
      /\ ((exists t, a = Send t (Normal s))
          \/ (exists st, a = GetSignatureStatus s (Normal st)
                         /\ isFinalized st = true)).

(** A status lookup comes right after a call that failed, and asks for the
    signature read from the message of that failure. *)
Definition readFromMessage (ins : list TransactionInstruction)
    (pre : list Event) (ev : Event) : Prop :=
  forall s r,
    snd ev = GetSignatureStatus s r ->
    exists pre' a e,
      pre = pre' ++ [(fst ev, a)]
      /\ failure a = Some e
      /\ errorSignature e = Some s.

End EventProperties.

(** The final state and the completion of a scripted run. *)
Definition ranTo (w : Script)
    (r : option (completion (list Settled) * Machine Script)) : Machine Script :=
  match r with
  | Some (_, m) => m
  | None => start w
  end.

Definition settledAs (r : option (completion (list Settled) * Machine Script))
  : completion (list Settled) :=
  match r with
  | Some (c, _) => c
  | None => Normal []
  end.

(** One transaction whose submission fails with a message that names a
    signature, found final. *)
Definition landedRun : option (completion (list Settled) * Machine Script) :=
  executeTransactions 5 landed [sampleTransaction] tt 3.

(** One transaction that expires in every attempt. *)
Definition expiringRun : option (completion (list Settled) * Machine Script) :=
  executeTransactions 5 expiring [sampleTransaction] tt 3.

(** Two transactions confirmed at once. *)
Definition acceptedRun : option (completion (list Settled) * Machine Script) :=
  executeTransactions 5 accepting [sampleTransaction; sampleTransaction] tt 3.

(** A service that answers every page of a collection of three pages. *)
Definition threePages : Feed :=
  mkFeed [] (fun req => Normal (samplePage 3 (req_page req))).

(** A service that refuses every request. *)
Definition refusing : Feed :=
  mkFeed [] (fun _ => Abrupt (newError "Request failed with status code 429")).

(** A service that refuses two requests and answers the third. *)
Definition flaky : Feed :=
  mkFeed [ Abrupt (newError "Request failed with status code 429");
           Abrupt (newError "timeout of 0ms exceeded") ]
    (fun req => Normal (samplePage 1 (req_page req))).

(** A network without state that confirms every submission at once and
    reports no status. *)
Definition steadyConnection : Connection (L := sampleClient) unit := {|
  getLatestBlockhash := fun w => (Normal ("hashA", 100), w);
  getBlockHeight := fun w => (Normal 90, w);
  sendAndConfirmTransaction := fun _ _ _ w => (Normal "sig1", w);
  getSignatureStatus := fun _ _ w => (Normal None, w);
  setTimeout := fun _ w => w
|}.


(** ** Tactics *)

(** Unfolds the operations of the machine. *)
Ltac run :=
  unfold whileBody, tryCatch, tryBlock, catchBlock, checkStatus, countAttempt,
    bind, ret, throw, gets, modify, await, sleep, push,
    set_world, emit, set_results, set_attempt, set_success, set_signature,
    set_transaction;
  cbn [world trace results attempt success signature transaction].

(** Proves that a list of explicit events is quiet. *)
Ltac quiet_tac :=
  repeat (apply Forall_cons; [split; [reflexivity | intros ?; discriminate]|]);
  apply Forall_nil.

(** Finds where an event lies in an explicit list. *)
Ltac locate :=
  repeat match goal with
         | H : _ :: _ = ?p ++ _ :: _ |- _ =>
             destruct p; cbn [app] in H; injection H as ? H
         | H : [] = ?p ++ _ :: _ |- _ => destruct p; discriminate H
         end.

(** The shapes of a round, as explicit lists. *)
Ltac shapes H :=
  inversion H; subst; clear H;
  repeat match goal with
         | Hc : CatchTrace _ _ _ _ _ _ |- _ => inversion Hc; subst; clear Hc
         | Hc : CountTrace _ _ _ _ _ _ |- _ => inversion Hc; subst; clear Hc
         end.

(** ** The batcher *)

Section BatcherFacts.
Context {L : LedgerClient}.

Lemma index_of_nat (A : Type) (l : list A) (k : nat) :
  index l (Z.of_nat k) = nth_error l k.
Proof.
  unfold index.
  destruct (Z.ltb_spec (Z.of_nat k) 0); [lia|].
  now rewrite Nat2Z.id.
Qed.

Lemma skipn_cons_nth (A : Type) (l : list A) (k : nat) (x : A) :
  nth_error l k = Some x -> skipn k l = x :: skipn (S k) l.
Proof.
  revert l; induction k; intros [|y l] H; simpl in *; try discriminate.
  - now inversion H.
  - now apply IHk.
Qed.

(** The inner loop collects the next [n] instructions from index [k] on, as
    far as there are any. *)
Lemma fillTransaction_firstn (l : list TransactionInstruction) (n k : nat)
    (bulk : Transaction) :
  fillTransaction l n (Z.of_nat k) bulk
  = {| instructions := instructions bulk ++ firstn n (skipn k l);
       recentBlockhash := recentBlockhash bulk |}.
Proof.
  revert k bulk; induction n; intros k bulk.
  - simpl. rewrite app_nil_r. now destruct bulk.
  - cbn [fillTransaction].
    replace (Z.of_nat k + 1) with (Z.of_nat (S k)) by lia.
    rewrite IHn, index_of_nat.
    destruct (nth_error l k) eqn:E.
    + rewrite (skipn_cons_nth _ _ _ _ E). simpl.
      now rewrite <- app_assoc.
    + apply nth_error_None in E.
      rewrite !skipn_all2 by lia.
      now rewrite !firstn_nil.
  Qed.

Lemma slices_length d c l : length (slices d c l) = d.
Proof. revert l; induction d; intros; simpl; auto. Qed.

Lemma slices_bounded d c l :
  Forall (fun t => (length (instructions t) <= c)%nat) (slices d c l).
Proof.
  revert l; induction d; intros; simpl; constructor; auto.
  simpl. rewrite length_firstn. lia.
Qed.

Lemma slices_concat d c l :
  (length l <= d * c)%nat ->
  concat (map (@instructions L) (slices d c l)) = l.
Proof.
  revert l; induction d; intros l H; simpl in *.
  - destruct l; simpl in *; [reflexivity | lia].
  - rewrite IHd.
    + apply firstn_skipn.
    + rewrite length_skipn. lia.
Qed.

(** The ceiling of a quotient by a positive divisor. *)
Lemma ceil_bounds (n c : Z) :
  0 < c ->
  let k := - ((- n) / c) in
  c * (k - 1) < n <= c * k /\ k = (n + c - 1) / c.
Proof.
  intros Hc k. subst k.
  pose proof (Z.div_mod (- n) c ltac:(lia)) as E.
  pose proof (Z.mod_pos_bound (- n) c Hc) as B.
  split; [nia|].
  apply Z.div_unique_pos with (r := n + c - 1 - c * - (- n / c)); nia.
Qed.

(** From round [i] on, the outer loop appends the remaining slices. *)
Lemma batchLoop_slices (l : list TransactionInstruction) (c : nat) (k : Z) :
  (0 < c)%nat ->
  forall (d : nat) (i : nat) (fuel : nat) (result : list Transaction),
    k = Z.of_nat (i + d) ->
    (d < fuel)%nat ->
    batchLoop fuel (Num k) (Z.of_nat c) l (Z.of_nat i) result
    = Some (result ++ slices d c (skipn (i * c) l)).
Proof.
  intros Hc. induction d; intros i fuel result Hk Hf.
  - destruct fuel; [lia|]. simpl.
    destruct (Z.ltb_spec (Z.of_nat i) k); [lia|].
    now rewrite app_nil_r.
  - destruct fuel; [lia|]. cbn [batchLoop lt_jsnum].
    destruct (Z.ltb_spec (Z.of_nat i) k); [|lia].
    cbv zeta.
    replace ((Z.of_nat i + 1) * Z.of_nat c - Z.of_nat i * Z.of_nat c)
      with (Z.of_nat c) by lia.
    replace (Z.of_nat i * Z.of_nat c) with (Z.of_nat (i * c)) by lia.
    replace (Z.of_nat i + 1) with (Z.of_nat (S i)) by lia.
    rewrite Nat2Z.id, fillTransaction_firstn.
    rewrite (IHd (S i)) by lia.
    rewrite <- app_assoc. simpl.
    now rewrite skipn_skipn.
Qed.

Lemma mapTransfer_length fromWallet amount dropList l :
  mapTransfer fromWallet amount dropList = Normal l ->
  length l = length dropList.
Proof.
  revert l; induction dropList as [|d rest IH]; intros l H; simpl in H.
  - now inversion H.
  - destruct (newPublicKey (owner d)) as [pk|]; [|discriminate].
    destruct (SystemProgram_transfer (transferParams fromWallet amount pk));
      [|discriminate].
    destruct (mapTransfer fromWallet amount rest); [|discriminate].
    inversion H; subst. simpl. now rewrite (IH _ eq_refl).
Qed.

End BatcherFacts.

Section BatcherTheorems.
Context {L : LedgerClient}.

Lemma mapTransfer_nth fromWallet amount dropList l i drop :
  mapTransfer fromWallet amount dropList = Normal l ->
  nth_error dropList i = Some drop ->
  exists pk ins,
    newPublicKey (owner drop) = Normal pk
    /\ SystemProgram_transfer
         {| fromPubkey := fromWallet;
            toPubkey := pk;
            lamports := PrimFloat.mul amount LAMPORTS_PER_SOL |}
       = Normal ins
    /\ nth_error l i = Some ins.
Proof.
  revert l i; induction dropList as [|d rest IH]; intros l i H Hi.
  - destruct i; discriminate.
  - simpl in H.
    destruct (newPublicKey (owner d)) as [pk|] eqn:Epk; [|discriminate].
    destruct (SystemProgram_transfer (transferParams fromWallet amount pk))
      as [ins|] eqn:Eins; [|discriminate].
    destruct (mapTransfer fromWallet amount rest) as [l'|] eqn:El; [|discriminate].
    inversion H; subst; clear H.
    destruct i as [|i]; simpl in Hi.
    + inversion Hi; subst. exists pk, ins.
      split; [assumption|]. split; [exact Eins | reflexivity].
    + simpl. now apply IH.
Qed.

Lemma mapTransfer_total fromWallet amount dropList :
  (forall d, In d dropList -> Transferable fromWallet amount d) ->
  exists l, mapTransfer fromWallet amount dropList = Normal l.
Proof.
  induction dropList as [|d rest IH]; intros H; simpl.
  - now exists [].
  - destruct (H d (or_introl eq_refl)) as (pk & ins & -> & ->).
    destruct IH as [l ->]; [intros; apply H; now right|].
    eauto.
Qed.

(** With a capacity of at least one, the batcher returns the slices of the
    instruction list, one per round. *)
Lemma generateTransactions_slices (batchSize : Z) (dropList : list Drop)
    (fromWallet : PublicKey) (amount : float)
    (txInstructions : list TransactionInstruction) (fuel : nat) :
  1 <= batchSize ->
  mapTransfer fromWallet amount dropList = Normal txInstructions ->
  (length txInstructions < fuel)%nat ->
  let n := Z.of_nat (length txInstructions) in
  let k := - ((- n) / batchSize) in
  generateTransactions fuel batchSize dropList fromWallet amount
  = Some (Normal (slices (Z.to_nat k) (Z.to_nat batchSize) txInstructions)).
Proof.
  intros Hc Hmap Hfuel n k.
  destruct (ceil_bounds n batchSize ltac:(lia)) as [[Hlo Hhi] _]. fold k in Hlo, Hhi.
  assert (0 <= k <= n) by nia.
  unfold generateTransactions. rewrite Hmap. cbv zeta.
  unfold ceil_div. fold n.
  destruct (Z.eqb_spec batchSize 0); [lia|]. fold k.
  pose proof (batchLoop_slices txInstructions (Z.to_nat batchSize) k
                ltac:(lia) (Z.to_nat k) 0%nat fuel [] ltac:(lia) ltac:(lia)) as E.
  rewrite Z2Nat.id in E by lia. simpl in E. now rewrite E.
Qed.

(** C1. For a capacity [batchSize >= 1] and an instruction list of length
    [N] (the transfers built from the drop list), [generateTransactions]
    returns [ceil (N / batchSize)] batches, each of at most [batchSize]
    instructions, holding [N] instructions in all, whose concatenation in
    order is the instruction list. *)
Theorem generateTransactions_partition (batchSize : Z) (dropList : list Drop)
    (fromWallet : PublicKey) (amount : float)
    (txInstructions : list TransactionInstruction) (fuel : nat) :
  1 <= batchSize ->
  mapTransfer fromWallet amount dropList = Normal txInstructions ->
  (length txInstructions < fuel)%nat ->
  let n := Z.of_nat (length txInstructions) in
  exists result : list Transaction,
    generateTransactions fuel batchSize dropList fromWallet amount
    = Some (Normal result)
    /\ Z.of_nat (length result) = (n + batchSize - 1) / batchSize
    /\ batchSize * (Z.of_nat (length result) - 1) < n
       <= batchSize * Z.of_nat (length result)
    /\ Forall (fun t => Z.of_nat (length (instructions t)) <= batchSize) result
    /\ list_sum (map (fun t => length (instructions t)) result)
       = length txInstructions
    /\ concat (map instructions result) = txInstructions.
Proof.
  intros Hc Hmap Hfuel n.
  pose proof (generateTransactions_slices _ _ _ _ _ _ Hc Hmap Hfuel) as E.
  cbv zeta in E. fold n in E.
  destruct (ceil_bounds n batchSize ltac:(lia)) as [[Hlo Hhi] Hk].
  cbv zeta in Hk.
  set (k := - (- n / batchSize)) in *.
  assert (0 <= k) by nia.
  assert (Hcat : concat (map instructions
                   (slices (Z.to_nat k) (Z.to_nat batchSize) txInstructions))
                 = txInstructions).
  { apply slices_concat. subst n. nia. }
  eexists. split; [exact E|].
  rewrite slices_length, Z2Nat.id by lia.
  repeat split; try assumption.
  - eapply Forall_impl; [|apply slices_bounded].
    intros t Ht. cbv beta in Ht. lia.
  - rewrite <- Hcat at 2. rewrite length_concat, map_map. reflexivity.
Qed.

(** C10, as the code has it.  For a capacity of at least one and a drop
    list whose owners are keys and whose transfers the library accepts, the
    [i]-th instruction of the concatenated batches is the instruction the
    library builds for the transfer, from the payer to the key made from the
    [owner] field of the [i]-th drop, of [amount * LAMPORTS_PER_SOL] base
    units as the code computes them: the product of two doubles, which is a
    double.  There are as many instructions as drops. *)
Theorem generateTransactions_transfers (batchSize : Z) (dropList : list Drop)
    (fromWallet : PublicKey) (amount : float) (fuel : nat) :
  1 <= batchSize ->
  (forall d, In d dropList -> Transferable fromWallet amount d) ->
  (length dropList < fuel)%nat ->
  exists result : list Transaction,
    generateTransactions fuel batchSize dropList fromWallet amount
    = Some (Normal result)
    /\ length (concat (map instructions result)) = length dropList
    /\ forall (i : nat) (drop : Drop),
         nth_error dropList i = Some drop ->
         exists pk ins,
           newPublicKey (owner drop) = Normal pk
           /\ SystemProgram_transfer
                {| fromPubkey := fromWallet;
                   toPubkey := pk;
                   lamports := PrimFloat.mul amount LAMPORTS_PER_SOL |}
              = Normal ins
           /\ nth_error (concat (map instructions result)) i = Some ins.
Proof.
  intros Hc Hkeys Hfuel.
  destruct (mapTransfer_total fromWallet amount dropList Hkeys) as [l Hmap].
  pose proof (mapTransfer_length _ _ _ _ Hmap) as Hlen.
  pose proof (generateTransactions_slices _ _ _ _ _ fuel Hc Hmap
                ltac:(lia)) as E.
  cbv zeta in E.
  set (n := Z.of_nat (length l)) in *.
  destruct (ceil_bounds n batchSize ltac:(lia)) as [[Hlo Hhi] _].
  set (k := - (- n / batchSize)) in *.
  assert (0 <= k) by nia.
  assert (Hcat : concat (map instructions
                   (slices (Z.to_nat k) (Z.to_nat batchSize) l)) = l).
  { apply slices_concat. subst n. nia. }
  eexists. split; [exact E|].
  rewrite Hcat. split; [assumption|].
  intros i drop Hi. eapply mapTransfer_nth; eassumption.
Qed.

End BatcherTheorems.

Lemma generateTransactions_partition_witness :
  exists result : list Transaction,
    generateTransactions (L := sampleClient) 4 2 sampleDrops "payer" 3 = Some (Normal result)
    /\ Z.of_nat (length result) = (3 + 2 - 1) / 2
    /\ 2 * (Z.of_nat (length result) - 1) < 3 <= 2 * Z.of_nat (length result)
    /\ Forall (fun t => Z.of_nat (length (instructions t)) <= 2) result
    /\ list_sum (map (fun t => length (instructions t)) result) = 3%nat
    /\ concat (map instructions result)
       = map (fun d => mkTransferParams "payer" (owner d) 3000000000%float)
           sampleDrops.
Proof.
  refine (generateTransactions_partition (L := sampleClient) 2 sampleDrops
            "payer" 3
            (map (fun d => mkTransferParams "payer" (owner d) 3000000000%float)
               sampleDrops)
            4%nat _ _ _); [lia | reflexivity | simpl; lia].
Defined.

Lemma generateTransactions_transfers_witness :
  exists result : list Transaction,
    generateTransactions (L := sampleClient) 4 2 sampleDrops "payer" 0.5
    = Some (Normal result)
    /\ length (concat (map instructions result)) = 3%nat
    /\ forall (i : nat) (drop : Drop),
         nth_error sampleDrops i = Some drop ->
         exists pk ins,
           newPublicKey (owner drop) = Normal pk
           /\ SystemProgram_transfer
                (mkTransferParams "payer" pk (PrimFloat.mul 0.5 1000000000))
              = Normal ins
           /\ nth_error (concat (map instructions result)) i = Some ins.
Proof.
  refine (generateTransactions_transfers (L := sampleClient) 2 sampleDrops
            "payer" 0.5%float 4%nat _ _ _); [lia | | simpl; lia].
  intros d Hd. simpl in Hd.
  destruct Hd as [<-|[<-|[<-|[]]]]; eexists; eexists; split; reflexivity.
Defined.

(** C10 as stated fails where the product is not a double.  With the
    amount [18446744073] the exact product with [LAMPORTS_PER_SOL] is
    [18446744073000000000]; the instruction carries the double next to it,
    [18446744072999999488] base units. *)
Lemma generateTransactions_lamports_rounded :
  generateTransactions (L := sampleClient) 2 1 [mkDrop "ownerA" "mintA"]
    "payer" 18446744073
  = Some (Normal
            [ {| instructions :=
                   [ mkTransferParams "payer" "ownerA" 18446744072999999488 ];
                 recentBlockhash := None |} ])
  /\ integerValue 18446744073 = Some 18446744073
  /\ integerValue (LAMPORTS_PER_SOL (LedgerClient := sampleClient))
     = Some 1000000000
  /\ integerValue 18446744072999999488 = Some 18446744072999999488
  /\ 18446744072999999488 <> 18446744073 * 1000000000.
Proof.
  split; [reflexivity|]. split; [reflexivity|]. split; [reflexivity|].
  split; [reflexivity | lia].
Qed.

Section CapacityBelowOne.
Context {L : LedgerClient}.

(** With the bound [Infinity] the loop is still running whatever the
    fuel. *)
Lemma batchLoop_Infinity (fuel : nat) (batchSize : Z)
    (l : list TransactionInstruction) (i : Z) (result : list Transaction) :
  batchLoop fuel Infinity batchSize l i result = None.
Proof.
  revert i result; induction fuel; intros; simpl; auto.
Qed.

(** A capacity of zero with a drop list that is not empty: the number of
    rounds is [Infinity] and the batcher never returns. *)
Lemma generateTransactions_zero_capacity_runs_on (fuel : nat)
    (dropList : list Drop) (fromWallet : PublicKey) (amount : float)
    (txInstructions : list TransactionInstruction) :
  mapTransfer fromWallet amount dropList = Normal txInstructions ->
  dropList <> [] ->
  generateTransactions fuel 0 dropList fromWallet amount = None.
Proof.
  intros Hmap Hne.
  pose proof (mapTransfer_length _ _ _ _ Hmap) as Hlen.
  unfold generateTransactions. rewrite Hmap. cbv zeta.
  unfold ceil_div. simpl (0 =? 0).
  destruct (Z.eqb_spec (Z.of_nat (length txInstructions)) 0) as [E|E].
  - destruct dropList; [congruence | simpl in Hlen; lia].
  - now rewrite batchLoop_Infinity.
Qed.


End CapacityBelowOne.



(** ** The pattern on messages *)

Lemma occurs_append c s1 s2 :
  occurs c (s1 ++ s2)%string = occurs c s1 || occurs c s2.
Proof.
  induction s1; simpl; [reflexivity|].
  now rewrite IHs1, orb_assoc.
Qed.

Lemma match_here_occurs s w : match_here s = Some w -> occurs "S" s = true.
Proof.
  unfold match_here. destruct s as [|a s]; cbn [strip_prefix]; [discriminate|].
  destruct (Ascii.eqb_spec "S" a) as [<-|]; intros H;
    [reflexivity | discriminate H].
Qed.

Lemma match_signature_occurs s w :
  match_signature s = Some w -> occurs "S" s = true.
Proof.
  induction s as [|a s IH]; intros H.
  - simpl in H. discriminate.
  - cbn [match_signature] in H.
    destruct (match_here (String a s)) eqn:E.
    + eapply match_here_occurs; eassumption.
    + simpl. rewrite (IH H). apply orb_true_r.
Qed.

(** A match captures at least one character. *)
Lemma match_signature_truthy s w :
  match_signature s = Some w -> truthy (Some w) = true.
Proof.
  induction s as [|a s IH]; intros H.
  - simpl in H. discriminate.
  - cbn [match_signature] in H.
    destruct (match_here (String a s)) eqn:E; [|auto].
    inversion H; subst; clear H.
    unfold match_here in E.
    destruct (strip_prefix "Signature " (String a s)); [|discriminate].
    destruct (take_word s0); [discriminate|].
    inversion E; subst. reflexivity.
Qed.

Lemma string_of_uint_no_S d : occurs "S" (NilEmpty.string_of_uint d) = false.
Proof. induction d; simpl; auto. Qed.

Lemma string_of_Z_no_S n : occurs "S" (string_of_Z n) = false.
Proof.
  unfold string_of_Z, NilZero.string_of_int, NilZero.string_of_uint.
  destruct (Z.to_int n) as [d|d]; destruct d; simpl;
    auto using string_of_uint_no_S.
Qed.

(** The message of the local expiry error never matches the pattern. *)
Lemma expiredMessage_no_match i h l :
  match_signature (expiredMessage i h l) = None.
Proof.
  destruct (match_signature (expiredMessage i h l)) eqn:E; [|reflexivity].
  apply match_signature_occurs in E.
  unfold expiredMessage in E.
  rewrite !occurs_append, !string_of_Z_no_S in E.
  simpl in E. discriminate.
Qed.

Example match_signature_library_message :
  match_signature "Signature 5VERv8 has expired: block height exceeded."
  = Some "5VERv8".
Proof. reflexivity. Qed.

Example match_signature_leftmost :
  match_signature "no Signature  here, Signature q_1-x and Signature zz"
  = Some "q_1".
Proof. reflexivity. Qed.

(** ** Single attempts *)

Section SubmissionFacts.
Context {L : LedgerClient} {World : Type} {C : Connection World}.

Lemma countAttempt_run i maxRetries error (m : Machine World) :
  countAttempt i maxRetries error m
  = Some (Normal false, counted i maxRetries error m).
Proof.
  run. unfold counted.
  destruct (attempt m + 1 >? maxRetries); reflexivity.
Qed.

Lemma whileBody_unfold i maxRetries payer (m : Machine World) :
  whileBody i maxRetries payer m
  = match tryBlock i payer m with
    | Some (Abrupt e, m') => catchBlock i maxRetries e m'
    | r => r
    end.
Proof. reflexivity. Qed.

(** An attempt whose submission succeeds. *)
Lemma tryBlock_success (i : Z) (payer : Keypair) (m : Machine World)
    bh lvh w1 h w2 sig w3 :
  getLatestBlockhash (world m) = (Normal (bh, lvh), w1) ->
  getBlockHeight w1 = (Normal h, w2) ->
  h <= lvh ->
  sendAndConfirmTransaction (stamped m bh) [payer] "finalized" w2
  = (Normal sig, w3) ->
  tryBlock i payer m
  = Some (Normal false,
          mkMachine w3
            (trace m ++ [ (i, Attempt (attempt m));
                          (i, GetLatestBlockhash (Normal (bh, lvh)));
                          (i, GetBlockHeight (Normal h));
                          (i, Send (stamped m bh) (Normal sig));
                          (i, Push (Fulfilled sig)) ])
            (results m ++ [Fulfilled sig])
            (attempt m) true (Some sig) (stamped m bh)).
Proof.
  intros H1 H2 Hh H3. run.
  rewrite H1. cbn. rewrite H2. cbn.
  destruct (Z.gtb_spec h lvh); [lia|]. cbn.
  unfold stamped in H3. rewrite H3. cbn.
  now rewrite <- !app_assoc.
Qed.

(** An attempt whose submission throws. *)
Lemma tryBlock_send_throws (i : Z) (payer : Keypair) (m : Machine World)
    bh lvh w1 h w2 e w3 :
  getLatestBlockhash (world m) = (Normal (bh, lvh), w1) ->
  getBlockHeight w1 = (Normal h, w2) ->
  h <= lvh ->
  sendAndConfirmTransaction (stamped m bh) [payer] "finalized" w2
  = (Abrupt e, w3) ->
  tryBlock i payer m
  = Some (Abrupt e,
          mkMachine w3
            (trace m ++ [ (i, Attempt (attempt m));
                          (i, GetLatestBlockhash (Normal (bh, lvh)));
                          (i, GetBlockHeight (Normal h));
                          (i, Send (stamped m bh) (Abrupt e)) ])
            (results m) (attempt m) (success m) (signature m) (stamped m bh)).
Proof.
  intros H1 H2 Hh H3. run.
  rewrite H1. cbn. rewrite H2. cbn.
  destruct (Z.gtb_spec h lvh); [lia|]. cbn.
  unfold stamped in H3. rewrite H3. cbn.
  now rewrite <- !app_assoc.
Qed.

(** An attempt that finds the block height past the last valid one. *)
Lemma tryBlock_local_expiry (i : Z) (payer : Keypair) (m : Machine World)
    bh lvh w1 h w2 :
  getLatestBlockhash (world m) = (Normal (bh, lvh), w1) ->
  getBlockHeight w1 = (Normal h, w2) ->
  h > lvh ->
  tryBlock i payer m
  = Some (Abrupt (newError (expiredMessage i h lvh)),
          mkMachine w2
            (trace m ++ [ (i, Attempt (attempt m));
                          (i, GetLatestBlockhash (Normal (bh, lvh)));
                          (i, GetBlockHeight (Normal h)) ])
            (results m) (attempt m) (success m) (signature m) (stamped m bh)).
Proof.
  intros H1 H2 Hh. run.
  rewrite H1. cbn. rewrite H2. cbn.
  destruct (Z.gtb_spec h lvh); [|lia]. cbn.
  now rewrite <- !app_assoc.
Qed.

(** The status of [sig] is [finalized]: the success is recorded and the
    loop is left. *)
Lemma checkStatus_finalized i sig otherwise (m : Machine World) st w' :
  getSignatureStatus sig true (world m) = (Normal st, w') ->
  isFinalized st = true ->
  checkStatus i sig otherwise m
  = Some (Normal true,
          mkMachine w'
            (trace m ++ [ (i, GetSignatureStatus sig (Normal st));
                          (i, Push (Fulfilled sig)) ])
            (results m ++ [Fulfilled sig])
            (attempt m) true (signature m) (transaction m)).
Proof.
  intros H1 H2. run. rewrite H1. cbn. rewrite H2. cbn.
  now rewrite <- !app_assoc.
Qed.

Lemma checkStatus_not_finalized i sig otherwise (m : Machine World) st w' :
  getSignatureStatus sig true (world m) = (Normal st, w') ->
  isFinalized st = false ->
  checkStatus i sig otherwise m
  = otherwise
      (mkMachine w' (trace m ++ [(i, GetSignatureStatus sig (Normal st))])
         (results m) (attempt m) (success m) (signature m) (transaction m)).
Proof.
  intros H1 H2. run. rewrite H1. cbn. now rewrite H2.
Qed.

(** The status lookup throws: the exception leaves the [catch] block. *)
Lemma checkStatus_throws i sig otherwise (m : Machine World) e w' :
  getSignatureStatus sig true (world m) = (Abrupt e, w') ->
  checkStatus i sig otherwise m
  = Some (Abrupt e,
          mkMachine w' (trace m ++ [(i, GetSignatureStatus sig (Abrupt e))])
            (results m) (attempt m) (success m) (signature m) (transaction m)).
Proof.
  intros H1. run. now rewrite H1.
Qed.

Lemma errorSignature_truthy error s :
  errorSignature error = Some s ->
  truthy (Some s) = true /\ isErrorWithMessage error = true.
Proof.
  unfold errorSignature, isErrorWithMessage.
  destruct (err_message error); [|discriminate].
  intros H. split; [eapply match_signature_truthy; eassumption | reflexivity].
Qed.

(** The first branch of the [catch] block needs a signature stored by a
    submission that returned; without one, the block goes by the signature
    read from the message. *)
Lemma catchBlock_by_message i maxRetries error (m : Machine World) :
  isTransactionExpiredBlockheightExceededError error && truthy (signature m)
  = false ->
  catchBlock i maxRetries error m
  = match errorSignature error with
    | Some s => checkStatus i s (countAttempt i maxRetries error) m
    | None => countAttempt i maxRetries error m
    end.
Proof.
  intros H. unfold catchBlock, bind, gets. cbn. rewrite H.
  destruct (errorSignature error) as [s|] eqn:E.
  - destruct (errorSignature_truthy _ _ E) as [-> ->]. reflexivity.
  - cbn. now destruct (isErrorWithMessage error).
Qed.


(** An attempt that cannot fetch a block hash. *)
Lemma tryBlock_latest_throws (i : Z) (payer : Keypair) (m : Machine World) e w1 :
  getLatestBlockhash (world m) = (Abrupt e, w1) ->
  tryBlock i payer m
  = Some (Abrupt e,
          mkMachine w1
            (trace m ++ [ (i, Attempt (attempt m));
                          (i, GetLatestBlockhash (Abrupt e)) ])
            (results m) (attempt m) (success m) (signature m) (transaction m)).
Proof.
  intros H1. run. rewrite H1. cbn. now rewrite <- !app_assoc.
Qed.

(** An attempt that cannot fetch the block height. *)
Lemma tryBlock_height_throws (i : Z) (payer : Keypair) (m : Machine World)
    bh lvh w1 e w2 :
  getLatestBlockhash (world m) = (Normal (bh, lvh), w1) ->
  getBlockHeight w1 = (Abrupt e, w2) ->
  tryBlock i payer m
  = Some (Abrupt e,
          mkMachine w2
            (trace m ++ [ (i, Attempt (attempt m));
                          (i, GetLatestBlockhash (Normal (bh, lvh)));
                          (i, GetBlockHeight (Abrupt e)) ])
            (results m) (attempt m) (success m) (signature m) (stamped m bh)).
Proof.
  intros H1 H2. run. rewrite H1. cbn. rewrite H2. cbn.
  now rewrite <- !app_assoc.
Qed.

(** A [try] block that throws leaves [signature] as it was: the variable
    is assigned only after the submission has returned. *)
Lemma tryBlock_throws_signature i payer (m m' : Machine World) e :
  tryBlock i payer m = Some (Abrupt e, m') -> signature m' = signature m.
Proof.
  destruct (getLatestBlockhash (world m)) as [[[bh lvh]|e1] w1] eqn:H1.
  2:{ rewrite (tryBlock_latest_throws i payer m e1 w1 H1).
      intros H; inversion H; reflexivity. }
  destruct (getBlockHeight w1) as [[h|e2] w2] eqn:H2.
  2:{ rewrite (tryBlock_height_throws i payer m bh lvh w1 e2 w2 H1 H2).
      intros H; inversion H; reflexivity. }
  destruct (Z.gtb_spec h lvh) as [Hh|Hh].
  { rewrite (tryBlock_local_expiry i payer m bh lvh w1 h w2 H1 H2 ltac:(lia)).
    intros H; inversion H; reflexivity. }
  destruct (sendAndConfirmTransaction (stamped m bh) [payer] "finalized" w2)
    as [[sig|e3] w3] eqn:H3.
  - rewrite (tryBlock_success i payer m bh lvh w1 h w2 sig w3 H1 H2 Hh H3).
    discriminate.
  - rewrite (tryBlock_send_throws i payer m bh lvh w1 h w2 e3 w3 H1 H2 Hh H3).
    intros H; inversion H; reflexivity.
Qed.

(** So in a round entered without a signature, as every round of a run is,
    the typed guard decides nothing: whatever is thrown, the [catch] block
    goes by the signature read from the message. *)
Lemma whileBody_without_signature i maxRetries payer (m : Machine World) :
  signature m = None ->
  whileBody i maxRetries payer m
  = match tryBlock i payer m with
    | Some (Abrupt e, m') =>
        match errorSignature e with
        | Some s => checkStatus i s (countAttempt i maxRetries e) m'
        | None => countAttempt i maxRetries e m'
        end
    | r => r
    end.
Proof.
  intros Hsig. rewrite whileBody_unfold.
  destruct (tryBlock i payer m) as [[[b|e] m']|] eqn:E; try reflexivity.
  apply catchBlock_by_message.
  rewrite (tryBlock_throws_signature _ _ _ _ _ E), Hsig.
  apply andb_false_r.
Qed.


Lemma lookups_app tr1 tr2 : lookups (tr1 ++ tr2) = lookups tr1 ++ lookups tr2.
Proof. apply flat_map_app. Qed.

Lemma attempts_app tr1 tr2 : attempts (tr1 ++ tr2) = attempts tr1 ++ attempts tr2.
Proof. apply flat_map_app. Qed.

Lemma pushes_app tr1 tr2 : pushes (tr1 ++ tr2) = pushes tr1 ++ pushes tr2.
Proof. apply flat_map_app. Qed.

Lemma attempts_cons ev tr :
  attempts (ev :: tr)
  = match snd ev with Attempt a => [a] | _ => [] end ++ attempts tr.
Proof. reflexivity. Qed.

Lemma submissions_cons ev tr :
  submissions (ev :: tr)
  = match snd ev with Send _ r => [r] | _ => [] end ++ submissions tr.
Proof. reflexivity. Qed.

Lemma lookups_cons ev tr :
  lookups (ev :: tr)
  = match snd ev with GetSignatureStatus s _ => [s] | _ => [] end ++ lookups tr.
Proof. reflexivity. Qed.

Lemma pushes_cons ev tr :
  pushes (ev :: tr)
  = match snd ev with Push s => [(fst ev, s)] | _ => [] end ++ pushes tr.
Proof. reflexivity. Qed.

Lemma whileLoop_unfold fuel i maxRetries payer (m : Machine World) :
  whileLoop (S fuel) i maxRetries payer m
  = if (attempt m <=? maxRetries) && negb (success m)
    then match whileBody i maxRetries payer m with
         | None => None
         | Some (Normal true, m') => Some (Normal tt, m')
         | Some (Normal false, m') => whileLoop fuel i maxRetries payer m'
         | Some (Abrupt e, m') => Some (Abrupt e, m')
         end
    else Some (Normal tt, m).
Proof.
  cbn [whileLoop]. unfold bind, ret.
  destruct ((attempt m <=? maxRetries) && negb (success m)); [|reflexivity].
  destruct (whileBody i maxRetries payer m) as [[[[|]|] ?]|]; reflexivity.
Qed.

Lemma forBody_unfold fuel len maxRetries payer i t (m : Machine World) :
  forBody fuel len maxRetries payer i t m
  = match whileLoop fuel i maxRetries payer (entered t m) with
    | None => None
    | Some (Normal _, m') =>
        if i <? len - 1
        then Some (Normal tt,
                   mkMachine (setTimeout TX_INTERVAL (world m'))
                     (trace m' ++ [(i, Delay TX_INTERVAL)]) (results m')
                     (attempt m') (success m') (signature m') (transaction m'))
        else Some (Normal tt, m')
    | Some (Abrupt e, m') => Some (Abrupt e, m')
    end.
Proof.
  unfold forBody, bind, modify, sleep, ret, entered. cbn.
  destruct (whileLoop fuel i maxRetries payer _) as [[[[]|] ?]|]; try reflexivity.
  destruct (i <? len - 1); reflexivity.
Qed.

End SubmissionFacts.

(** ** Transactions and attempts *)

Section AttemptTheorems.
Context {L : LedgerClient} {World : Type} {C : Connection World}.

(** C8. When the submission of the first attempt of a transaction returns
    a signature, the outcome pushed for that transaction is [Fulfilled] with
    that signature, after one attempt and one submission and without any
    status lookup. *)
Theorem first_submission_fulfilled (fuel : nat) (len maxRetries : Z)
    (payer : Keypair) (i : Z) (t : Transaction) (m : Machine World)
    bh lvh w1 h w2 sig w3 :
  0 <= maxRetries ->
  (2 <= fuel)%nat ->
  getLatestBlockhash (world m) = (Normal (bh, lvh), w1) ->
  getBlockHeight w1 = (Normal h, w2) ->
  h <= lvh ->
  sendAndConfirmTransaction
    {| instructions := instructions t; recentBlockhash := Some bh |}
    [payer] "finalized" w2 = (Normal sig, w3) ->
  exists (m' : Machine World) (tr : list Event),
    forBody fuel len maxRetries payer i t m = Some (Normal tt, m')
    /\ results m' = results m ++ [Fulfilled sig]
    /\ trace m' = trace m ++ tr
    /\ attempts tr = [0]
    /\ submissions tr = [Normal sig]
    /\ lookups tr = []
    /\ pushes tr = [(i, Fulfilled sig)].
Proof.
  intros Hmax Hfuel H1 H2 Hh H3.
  destruct fuel as [|[|fuel]]; try lia.
  rewrite forBody_unfold, whileLoop_unfold.
  cbn [entered attempt success].
  destruct (Z.leb_spec 0 maxRetries); [|lia]. cbn [negb andb].
  rewrite whileBody_unfold.
  rewrite (tryBlock_success i payer (entered t m) bh lvh w1 h w2 sig w3 H1 H2 Hh H3).
  rewrite whileLoop_unfold. cbn [attempt success negb]. rewrite andb_false_r.
  destruct (i <? len - 1); eexists; eexists;
    (split; [reflexivity|]); cbn [results trace entered];
    (split; [reflexivity|]);
    (split; [rewrite <- ?app_assoc; reflexivity|]);
    repeat split; reflexivity.
Qed.


(** C9. In any attempt in which the block height fetched exceeds the last
    valid block height, nothing is submitted and no status is looked up: the
    attempt is counted, and the transaction is rejected when the attempts
    are used up or else the delay passes. *)
Theorem height_exceeded_not_submitted (i maxRetries : Z) (payer : Keypair)
    (m : Machine World) bh lvh w1 h w2 :
  getLatestBlockhash (world m) = (Normal (bh, lvh), w1) ->
  getBlockHeight w1 = (Normal h, w2) ->
  h > lvh ->
  exists (m' : Machine World) (tr : list Event),
    whileBody i maxRetries payer m = Some (Normal false, m')
    /\ attempt m' = attempt m + 1
    /\ success m' = success m
    /\ trace m' = trace m ++ tr
    /\ tr = [ (i, Attempt (attempt m));
              (i, GetLatestBlockhash (Normal (bh, lvh)));
              (i, GetBlockHeight (Normal h));
              (i, if attempt m + 1 >? maxRetries
                  then Push (Rejected (newError (expiredMessage i h lvh)))
                  else Delay TX_INTERVAL) ]
    /\ submissions tr = []
    /\ lookups tr = []
    /\ results m'
       = if attempt m + 1 >? maxRetries
         then results m ++ [Rejected (newError (expiredMessage i h lvh))]
         else results m.
Proof.
  intros H1 H2 Hh.
  rewrite whileBody_unfold.
  rewrite (tryBlock_local_expiry i payer m bh lvh w1 h w2 H1 H2 Hh).
  rewrite catchBlock_by_message by reflexivity.
  unfold errorSignature. cbn [newError err_message].
  rewrite expiredMessage_no_match, countAttempt_run.
  unfold counted. cbn [attempt trace world results success signature transaction].
  destruct (attempt m + 1 >? maxRetries); eexists; eexists;
    (split; [reflexivity|]); cbn [attempt success trace results];
    rewrite <- ?app_assoc; repeat split; reflexivity.
Qed.





End AttemptTheorems.

Lemma first_submission_fulfilled_witness :
  exists (m' : Machine Script) (tr : list Event),
    forBody 2 1 3 tt 0 sampleTransaction (start accepting) = Some (Normal tt, m')
    /\ results m' = [] ++ [Fulfilled "sig1"]
    /\ trace m' = [] ++ tr
    /\ attempts tr = [0]
    /\ submissions tr = [Normal "sig1"]
    /\ lookups tr = []
    /\ pushes tr = [(0, Fulfilled "sig1")].
Proof.
  refine (first_submission_fulfilled (C := scriptConnection) 2 1 3 tt 0
            sampleTransaction (start accepting)
            "hashA" 100 accepting 90 accepting "sig1" accepting
            _ _ _ _ _ _); try reflexivity; lia.
Defined.



Lemma height_exceeded_not_submitted_witness :
  exists (m' : Machine Script) (tr : list Event),
    whileBody 0 3 tt (entered sampleTransaction (start late))
    = Some (Normal false, m')
    /\ attempt m' = 0 + 1
    /\ success m' = false
    /\ trace m' = [] ++ tr
    /\ tr = [ (0, Attempt 0);
              (0, GetLatestBlockhash (Normal ("hashA", 100)));
              (0, GetBlockHeight (Normal 101));
              (0, if 0 + 1 >? 3
                  then Push (Rejected (newError (expiredMessage 0 101 100)))
                  else Delay TX_INTERVAL) ]
    /\ submissions tr = []
    /\ lookups tr = []
    /\ results m'
       = if 0 + 1 >? 3
         then [] ++ [Rejected (newError (expiredMessage 0 101 100))]
         else [].
Proof.
  refine (height_exceeded_not_submitted (C := scriptConnection) 0 3 tt
            (entered sampleTransaction (start late))
            "hashA" 100 late 101 late _ _ _); try reflexivity; lia.
Defined.


(** The [signature] property of a caught error is not what sends the code
    to the network.  For a typed expiry error carrying the signature
    ["sigA"] whose message does not repeat it, no status is looked up,
    although the network would report ["sigA"] as [finalized]: the
    transaction is submitted four times (the default [maxRetries] of 3) and
    the outcome is [Rejected].  In the [catch] block the variable
    [signature] is still [null], because it is assigned only when the
    submission returns. *)
Example expired_error_signature_not_looked_up :
  exists m' : Machine Script,
    executeTransactions 5 expiredButFinal [sampleTransaction] tt 3
    = Some (Normal [Rejected (expiredError "sigA" "block height exceeded")], m')
    /\ lookups (trace m') = []
    /\ length (submissions (trace m')) = 4%nat
    /\ statusAnswer expiredButFinal "sigA" = Normal finalized.
Proof.
  eexists. split; [vm_compute; reflexivity|].
  repeat split; vm_compute; reflexivity.
Qed.

(** With the message of the client library, which repeats the signature
    after the word [Signature], the second branch of the [catch] block finds
    it. *)
Example expired_error_library_message :
  exists m' : Machine Script,
    executeTransactions 5 expiredLanded [sampleTransaction] tt 3
    = Some (Normal [Fulfilled "sigA"], m')
    /\ lookups (trace m') = ["sigA"]
    /\ length (submissions (trace m')) = 1%nat.
Proof.
  eexists. split; [vm_compute; reflexivity|].
  repeat split; vm_compute; reflexivity.
Qed.

(** C4, on the code.  When the status lookup made in the [catch] block
    throws, [executeTransactions] rejects with that error: nothing catches
    it, no outcome is recorded for the transaction, and the second
    transaction is never attempted. *)
Theorem status_lookup_failure_escapes :
  exists m' : Machine Script,
    executeTransactions 5 statusDown [sampleTransaction; sampleTransaction] tt 3
    = Some (Abrupt (newError "503 Service Unavailable"), m')
    /\ results m' = []
    /\ attempts (trace m') = [0]
    /\ map fst (trace m') = [0; 0; 0; 0; 0].
Proof.
  eexists. split; [vm_compute; reflexivity|].
  repeat split; vm_compute; reflexivity.
Qed.

(** C7, on the code.  Of three transactions the first is fulfilled; the
    status lookup of the second throws, and the run ends there with a
    rejected promise: the caller gets no list of outcomes, the second
    transaction has none, and the third is never processed. *)
Theorem status_lookup_failure_leaves_no_outcomes :
  exists m' : Machine Script,
    executeTransactions 5 statusDownLater
      [sampleTransaction; sampleTransaction; sampleTransaction] tt 3
    = Some (Abrupt (newError "503 Service Unavailable"), m')
    /\ pushes (trace m') = [(0, Fulfilled "sig1")]
    /\ (forall ev, In ev (trace m') -> fst ev = 0 \/ fst ev = 1).
Proof.
  eexists. split; [vm_compute; reflexivity|].
  split; [vm_compute; reflexivity|].
  intros ev H. vm_compute in H.
  repeat (destruct H as [<-|H]; [simpl; auto|]). destruct H.
Qed.

(** ** Whole runs *)

Section RunTheorems.
Context {L : LedgerClient} {World : Type} {C : Connection World}.

Lemma quiet_app i tr1 tr2 : quiet i tr1 -> quiet i tr2 -> quiet i (tr1 ++ tr2).
Proof. intros; apply Forall_app; now split. Qed.

Lemma quiet_nil i : quiet i [].
Proof. constructor. Qed.

Lemma countAttempt_ends i maxRetries error (m : Machine World) :
  roundEnds i maxRetries m (countAttempt i maxRetries error m).
Proof.
  rewrite countAttempt_run. unfold counted.
  destruct (Z.gtb_spec (attempt m + 1) maxRetries).
  - eexists; eexists; exists [(i, Push (Rejected error))].
    split; [reflexivity|]. split; [reflexivity|].
    left. exists (Rejected error). split.
    + split; [reflexivity|]. exists []. split; [reflexivity | apply quiet_nil].
    + right; right. cbn. lia.
  - eexists; eexists; exists [(i, Delay TX_INTERVAL)].
    split; [reflexivity|]. split; [reflexivity|].
    right. split; [reflexivity|].
    repeat split; cbn; try reflexivity; try lia. quiet_tac.
Qed.

(** A round that goes on from [m1], reached from [m] by quiet events. *)
Lemma roundEnds_after i maxRetries (m m1 : Machine World) tr1 r :
  trace m1 = trace m ++ tr1 ->
  quiet i tr1 ->
  results m1 = results m ->
  attempt m1 = attempt m ->
  success m1 = success m ->
  roundEnds i maxRetries m1 r ->
  roundEnds i maxRetries m r.
Proof.
  intros Htr Hq Hres Hat Hsu (c & m' & tr & -> & Htr' & H).
  exists c, m', (tr1 ++ tr). split; [reflexivity|].
  split; [rewrite Htr', Htr; symmetry; apply app_assoc|].
  destruct c as [b|e].
  - destruct H as [(s & (Hr & body & -> & Hb) & Hexit)
                  | (-> & Hr & Ha & Hle & Hs & Hq')].
    + left. exists s. split; [|assumption].
      split; [congruence|]. exists (tr1 ++ body).
      split; [apply app_assoc | now apply quiet_app].
    + right. split; [reflexivity|].
      repeat split; try congruence. now apply quiet_app.
  - destruct H as (Hr & sig & body & -> & Hb & Hw).
    split; [congruence|]. exists sig, (tr1 ++ body).
    split; [apply app_assoc|]. split; [now apply quiet_app | assumption].
Qed.

Lemma checkStatus_ends i maxRetries error sig (m : Machine World) :
  roundEnds i maxRetries m
    (checkStatus i sig (countAttempt i maxRetries error) m).
Proof.
  destruct (getSignatureStatus sig true (world m)) as [[st|e] w'] eqn:H.
  - destruct (isFinalized st) eqn:Hf.
    + erewrite checkStatus_finalized by eassumption.
      eexists; eexists; eexists.
      split; [reflexivity|]. split; [reflexivity|].
      left. exists (Fulfilled sig). split; [|now left].
      split; [reflexivity|].
      exists [(i, GetSignatureStatus sig (Normal st))].
      split; [reflexivity | quiet_tac].
    + erewrite checkStatus_not_finalized by eassumption.
      eapply roundEnds_after; [| | | | | apply countAttempt_ends];
        try reflexivity. quiet_tac.
  - erewrite checkStatus_throws by eassumption.
    eexists; eexists; eexists.
    split; [reflexivity|]. split; [reflexivity|].
    split; [reflexivity|]. exists sig, []. split; [reflexivity|].
    split; [apply quiet_nil | eauto].
Qed.

Lemma catchBlock_ends i maxRetries error (m : Machine World) :
  roundEnds i maxRetries m (catchBlock i maxRetries error m).
Proof.
  destruct (isTransactionExpiredBlockheightExceededError error
            && truthy (signature m)) eqn:E.
  - unfold catchBlock, bind, gets. cbn. rewrite E.
    destruct (signature m);
      [apply checkStatus_ends | apply countAttempt_ends].
  - rewrite catchBlock_by_message by assumption.
    destruct (errorSignature error);
      [apply checkStatus_ends | apply countAttempt_ends].
Qed.

(** Every round of the retry loop ends in one of the three ways. *)
Lemma whileBody_ends i maxRetries payer (m : Machine World) :
  roundEnds i maxRetries m (whileBody i maxRetries payer m).
Proof.
  rewrite whileBody_unfold.
  destruct (getLatestBlockhash (world m)) as [[[bh lvh]|e] w1] eqn:H1.
  2:{ rewrite (tryBlock_latest_throws i payer m e w1 H1).
      eapply roundEnds_after; [| | | | | apply catchBlock_ends];
        try reflexivity. quiet_tac. }
  destruct (getBlockHeight w1) as [[h|e] w2] eqn:H2.
  2:{ rewrite (tryBlock_height_throws i payer m bh lvh w1 e w2 H1 H2).
      eapply roundEnds_after; [| | | | | apply catchBlock_ends];
        try reflexivity. quiet_tac. }
  destruct (Z.gtb_spec h lvh) as [Hh|Hh].
  { rewrite (tryBlock_local_expiry i payer m bh lvh w1 h w2 H1 H2 ltac:(lia)).
    eapply roundEnds_after; [| | | | | apply catchBlock_ends];
      try reflexivity. quiet_tac. }
  destruct (sendAndConfirmTransaction (stamped m bh) [payer] "finalized" w2)
    as [[sig|e] w3] eqn:H3.
  - rewrite (tryBlock_success i payer m bh lvh w1 h w2 sig w3 H1 H2 Hh H3).
    eexists; eexists; eexists.
    split; [reflexivity|]. split; [reflexivity|].
    left. exists (Fulfilled sig). split; [|right; now left].
    split; [reflexivity|].
    exists [ (i, Attempt (attempt m));
             (i, GetLatestBlockhash (Normal (bh, lvh)));
             (i, GetBlockHeight (Normal h));
             (i, Send (stamped m bh) (Normal sig)) ].
    split; [reflexivity | quiet_tac].
  - rewrite (tryBlock_send_throws i payer m bh lvh w1 h w2 e w3 H1 H2 Hh H3).
    eapply roundEnds_after; [| | | | | apply catchBlock_ends];
      try reflexivity. quiet_tac.
Qed.

(** With enough fuel the retry loop ends, having pushed one outcome as its
    last act, unless a status lookup threw. *)
Lemma whileLoop_ends i maxRetries payer :
  forall (n fuel : nat) (m : Machine World),
    success m = false ->
    attempt m <= maxRetries ->
    Z.to_nat (maxRetries - attempt m) = n ->
    (n + 1 < fuel)%nat ->
    exists c m' tr,
      whileLoop fuel i maxRetries payer m = Some (c, m')
      /\ trace m' = trace m ++ tr
      /\ match c with
         | Normal _ => exists s, settles i m m' tr s
         | Abrupt e => raises i m m' tr e
         end.
Proof.
  induction n; intros fuel m Hs Ha Hn Hfuel;
    (destruct fuel as [|fuel]; [lia|]);
    rewrite whileLoop_unfold, Hs;
    (destruct (Z.leb_spec (attempt m) maxRetries); [|lia]); cbn [negb andb];
    destruct (whileBody_ends i maxRetries payer m)
      as (c & m1 & tr1 & -> & Htr1 & H1);
    (destruct c as [b|e]; [|exists (Abrupt e), m1, tr1; auto]).
  all: destruct H1 as [(s & Hset & Hexit) | (-> & Hr & Hat & Hle & Hsu & Hq)].
  all: try lia.
  1,2: destruct b; [exists (Normal tt), m1, tr1; eauto|];
       destruct fuel as [|fuel]; [lia|];
       rewrite whileLoop_unfold;
       assert (E : (attempt m1 <=? maxRetries) && negb (success m1) = false)
         by (destruct Hexit as [Hb|[->|Hgt]];
             [discriminate | apply andb_false_r
             | destruct (Z.leb_spec (attempt m1) maxRetries); [lia | reflexivity]]);
       rewrite E; exists (Normal tt), m1, tr1; eauto.
  destruct (IHn fuel m1) as (c & m' & tr & Hrun & Htr & HH); try lia; try congruence.
  exists c, m', (tr1 ++ tr). split; [assumption|].
  split; [rewrite Htr, Htr1; symmetry; apply app_assoc|].
  destruct c as [u|e].
  - destruct HH as (s & Hres & body & -> & Hb). exists s.
    split; [congruence|]. exists (tr1 ++ body).
    split; [apply app_assoc | now apply quiet_app].
  - destruct HH as (Hres & sig & body & -> & Hb & Hw).
    split; [congruence|]. exists sig, (tr1 ++ body).
    split; [apply app_assoc|]. split; [now apply quiet_app | assumption].
Qed.

(** The body of the [for] loop pushes one outcome for its entry, unless a
    status lookup threw. *)
Lemma forBody_ends fuel len maxRetries payer i t (m : Machine World) :
  0 <= maxRetries ->
  (Z.to_nat maxRetries + 1 < fuel)%nat ->
  exists c m' tr,
    forBody fuel len maxRetries payer i t m = Some (c, m')
    /\ trace m' = trace m ++ tr
    /\ match c with
       | Normal _ =>
           exists s body,
             results m' = results m ++ [s]
             /\ tr = body ++ (i, Push s) :: pause len i
             /\ quiet i body
       | Abrupt e => raises i m m' tr e
       end.
Proof.
  intros Hmax Hfuel. rewrite forBody_unfold.
  destruct (whileLoop_ends i maxRetries payer (Z.to_nat maxRetries) fuel
              (entered t m)) as (c & m1 & tr & -> & Htr & H);
    cbn [entered attempt success]; try lia; try reflexivity.
  cbn [entered trace results] in Htr.
  destruct c as [u|e].
  - destruct H as (s & Hres & body & -> & Hb). cbn [entered results] in Hres.
    unfold pause. destruct (i <? len - 1).
    + eexists; eexists; exists ((body ++ [(i, Push s)]) ++ [(i, Delay TX_INTERVAL)]).
      split; [reflexivity|]. cbn [trace results].
      split; [rewrite Htr; symmetry; apply app_assoc|].
      exists s, body. rewrite <- app_assoc. auto.
    + exists (Normal tt), m1, (body ++ [(i, Push s)]).
      split; [reflexivity|]. split; [assumption|].
      exists s, body. auto.
  - exists (Abrupt e), m1, tr. auto.
Qed.

(** The [for] loop from the entry [i] on: one segment per entry, up to the
    end of the list or to the status lookup that threw. *)
Lemma forLoop_ends fuel len maxRetries payer :
  0 <= maxRetries ->
  (Z.to_nat maxRetries + 1 < fuel)%nat ->
  forall (entries : list Transaction) (i : Z) (m : Machine World),
    exists c m' rs tr,
      forLoop fuel len maxRetries payer i entries m = Some (c, m')
      /\ results m' = results m ++ rs
      /\ match c with
         | Normal _ =>
             trace m' = trace m ++ tr
             /\ length rs = length entries
             /\ Segments len i rs tr
         | Abrupt e =>
             (length rs < length entries)%nat
             /\ Segments len i rs tr
             /\ exists sig body,
                  trace m'
                  = trace m ++ tr ++ body
                      ++ [(i + Z.of_nat (length rs), GetSignatureStatus sig (Abrupt e))]
                  /\ quiet (i + Z.of_nat (length rs)) body
                  /\ exists w w', getSignatureStatus sig true w = (Abrupt e, w')
         end.
Proof.
  intros Hmax Hfuel. induction entries as [|t rest IH]; intros i m.
  - exists (Normal tt), m, [], []. cbn. rewrite !app_nil_r.
    repeat split. constructor.
  - cbn [forLoop]. unfold bind at 1.
    destruct (forBody_ends fuel len maxRetries payer i t m Hmax Hfuel)
      as (c & m1 & tr1 & -> & Htr1 & H1).
    destruct c as [u|e].
    + destruct H1 as (s & body & Hres1 & -> & Hb).
      destruct (IH (i + 1) m1) as (c & m' & rs & tr & -> & Hres & H).
      exists c, m', (s :: rs), (body ++ (i, Push s) :: pause len i ++ tr).
      split; [reflexivity|].
      split; [rewrite Hres, Hres1, <- app_assoc; reflexivity|].
      destruct c as [u'|e].
      * destruct H as (Htr & Hlen & Hseg).
        split; [rewrite Htr, Htr1;
                repeat (rewrite <- app_assoc || rewrite <- app_comm_cons);
                reflexivity|].
        split; [cbn; lia | now constructor].
      * destruct H as (Hlen & Hseg & sig & body' & Htr & Hb' & Hw).
        split; [cbn; lia|]. split; [now constructor|].
        exists sig, body'.
        replace (i + Z.of_nat (length (s :: rs)))
          with (i + 1 + Z.of_nat (length rs)) by (cbn [length]; lia).
        split; [|auto].
        rewrite Htr, Htr1.
        repeat (rewrite <- app_assoc || rewrite <- app_comm_cons).
        reflexivity.
    + destruct H1 as (Hres1 & sig & body & -> & Hb & Hw).
      exists (Abrupt e), m1, [], [].
      split; [reflexivity|]. split; [now rewrite app_nil_r|].
      split; [cbn; lia|]. split; [constructor|].
      exists sig, body. cbn [length app]. rewrite Z.add_0_r. auto.
Qed.

Lemma quiet_pushes i tr : quiet i tr -> pushes tr = [].
Proof.
  induction 1 as [|ev tr [_ Hev] _ IH]; [reflexivity|].
  rewrite pushes_cons, IH.
  destruct ev as [k a]. destruct a; try reflexivity. now destruct (Hev s).
Qed.

Lemma pause_pushes len i : pushes (pause len i) = [].
Proof. unfold pause. now destruct (i <? len - 1). Qed.

Lemma Segments_pushes len i rs tr :
  Segments len i rs tr -> pushes tr = indexed i rs.
Proof.
  induction 1 as [|i s rs body rest Hb _ IH]; [reflexivity|].
  rewrite pushes_app, (quiet_pushes _ _ Hb), pushes_cons, pushes_app,
    pause_pushes, IH.
  reflexivity.
Qed.

Lemma Segments_indices len i rs tr :
  Segments len i rs tr -> forall ev, In ev tr -> i <= fst ev.
Proof.
  induction 1 as [|i s rs body rest Hb _ IH]; intros ev Hin; [destruct Hin|].
  apply in_app_or in Hin. destruct Hin as [Hin|[<-|Hin]].
  - unfold quiet in Hb. rewrite Forall_forall in Hb.
    destruct (Hb ev Hin) as [-> _]. lia.
  - cbn. lia.
  - apply in_app_or in Hin. destruct Hin as [Hin|Hin].
    + unfold pause in Hin. destruct (i <? len - 1); [|destruct Hin].
      destruct Hin as [<-|[]]. cbn. lia.
    + specialize (IH ev Hin). lia.
Qed.

(** Where an element of a concatenation lies. *)
Lemma app_eq_elt (A : Type) (l1 l2 pre post : list A) (x : A) :
  l1 ++ l2 = pre ++ x :: post ->
  (exists mid, l1 = pre ++ x :: mid /\ post = mid ++ l2)
  \/ (exists mid, pre = l1 ++ mid /\ l2 = mid ++ x :: post).
Proof.
  revert pre; induction l1 as [|a l1 IH]; intros pre H.
  - right. exists pre. auto.
  - destruct pre as [|b pre]; cbn in H; inversion H; subst.
    + left. exists l1. auto.
    + destruct (IH pre H2) as [(mid & -> & ->)|(mid & -> & ->)].
      * left. exists mid. auto.
      * right. exists mid. auto.
Qed.

Lemma Segments_sequential len lo rs tr :
  Segments len lo rs tr ->
  forall pre j t r post,
    tr = pre ++ (j, Send t r) :: post ->
    (forall i, lo <= i < j -> exists s, In (i, Push s) pre)
    /\ (forall s, ~ In (j, Push s) pre).
Proof.
  induction 1 as [i|i s rs body rest Hb Hseg IH]; intros pre j t r post E.
  - destruct pre; discriminate.
  - pose proof Hb as Hb'. unfold quiet in Hb'. rewrite Forall_forall in Hb'.
    apply app_eq_elt in E.
    destruct E as [(mid & -> & _) | (mid & -> & E)].
    + destruct (Hb' (j, Send t r)) as [Hj _];
        [apply in_elt|]. cbn in Hj. subst j.
      split; [intros k Hk; lia|].
      intros s' Hin.
      destruct (Hb' (i, Push s')) as [_ Hno];
        [apply in_or_app; now left|].
      now apply (Hno s').
    + destruct mid as [|x mid]; cbn in E; [discriminate|].
      inversion E as [[Hx E']]. subst x. clear E.
      apply app_eq_elt in E'.
      destruct E' as [(mid' & Hp & _) | (mid' & -> & ->)].
      * unfold pause in Hp. destruct (i <? len - 1).
        -- destruct mid as [|? [|? ?]]; cbn in Hp; discriminate.
        -- destruct mid; discriminate.
      * destruct (IH mid' j t r post eq_refl) as [IH1 IH2].
        pose proof (Segments_indices _ _ _ _ Hseg (j, Send t r)
                      ltac:(apply in_elt)) as Hj. cbn in Hj.
        split.
        -- intros k Hk. destruct (Z.eq_dec k i) as [->|Hne].
           ++ exists s. apply in_or_app. right. now left.
           ++ destruct (IH1 k ltac:(lia)) as [s' Hs'].
              exists s'. apply in_or_app. right. right.
              apply in_or_app. right. assumption.
        -- intros s' Hin. apply in_app_or in Hin.
           destruct Hin as [Hin|[Hin|Hin]].
           ++ destruct (Hb' _ Hin) as [_ Hno]. now apply (Hno s').
           ++ inversion Hin. lia.
           ++ apply in_app_or in Hin. destruct Hin as [Hin|Hin].
              ** unfold pause in Hin. destruct (i <? len - 1); [|destruct Hin].
                 destruct Hin as [Hin|[]]. discriminate.
              ** now apply (IH2 s').
Qed.

(** The two ways a run ends, with [0 <= maxRetries] and fuel for
    [maxRetries + 1] rounds. *)
Lemma executeTransactions_cases (fuel : nat) (w : World)
    (transactionList : list Transaction) (payer : Keypair) (maxRetries : Z) :
  0 <= maxRetries ->
  (Z.to_nat maxRetries + 1 < fuel)%nat ->
  exists c m',
    executeTransactions fuel w transactionList payer maxRetries = Some (c, m')
    /\ match c with
       | Normal rs =>
           rs = results m'
           /\ length rs = length transactionList
           /\ Segments (Z.of_nat (length transactionList)) 0 rs (trace m')
       | Abrupt e =>
           (length (results m') < length transactionList)%nat
           /\ exists tr sig body,
                Segments (Z.of_nat (length transactionList)) 0 (results m') tr
                /\ trace m'
                   = tr ++ body
                       ++ [(Z.of_nat (length (results m')),
                            GetSignatureStatus sig (Abrupt e))]
                /\ quiet (Z.of_nat (length (results m'))) body
                /\ exists w0 w', getSignatureStatus sig true w0 = (Abrupt e, w')
       end.
Proof.
  intros Hmax Hfuel. unfold executeTransactions, bind.
  destruct (forLoop_ends fuel (Z.of_nat (length transactionList)) maxRetries
              payer Hmax Hfuel transactionList 0 (start w))
    as (c & m' & rs & tr & -> & Hres & H).
  cbn [start results trace app] in Hres, H.
  destruct c as [u|e].
  - destruct H as (Htr & Hlen & Hseg).
    exists (Normal (results m')), m'. split; [reflexivity|].
    rewrite Hres, Htr. auto.
  - destruct H as (Hlen & Hseg & sig & body & Htr & Hb & Hw).
    exists (Abrupt e), m'. split; [reflexivity|].
    rewrite Hres. split; [assumption|].
    exists tr, sig, body. auto.
Qed.

(** Every run ends.  Either it returns the list of outcomes, one per
    transaction and pushed while that transaction was being processed, or a
    status lookup threw and the run rejects with that error, with outcomes
    for the transactions before the offending one only.  [0 <= maxRetries]
    and the fuel covers [maxRetries + 1] rounds. *)
Theorem executeTransactions_ends (fuel : nat) (w : World)
    (transactionList : list Transaction) (payer : Keypair) (maxRetries : Z) :
  0 <= maxRetries ->
  (Z.to_nat maxRetries + 1 < fuel)%nat ->
  exists c m',
    executeTransactions fuel w transactionList payer maxRetries = Some (c, m')
    /\ match c with
       | Normal rs =>
           rs = results m'
           /\ length rs = length transactionList
           /\ Segments (Z.of_nat (length transactionList)) 0 rs (trace m')
       | Abrupt e =>
           (length (results m') < length transactionList)%nat
           /\ exists tr sig body,
                Segments (Z.of_nat (length transactionList)) 0 (results m') tr
                /\ trace m'
                   = tr ++ body
                       ++ [(Z.of_nat (length (results m')),
                            GetSignatureStatus sig (Abrupt e))]
                /\ quiet (Z.of_nat (length (results m'))) body
                /\ exists w0 w', getSignatureStatus sig true w0 = (Abrupt e, w')
       end.
Proof. apply executeTransactions_cases. Qed.

(** When no status lookup throws, the run returns one outcome per
    transaction, in the order of the list, and processes the transactions
    strictly in sequence. *)
Theorem executeTransactions_settles_all (fuel : nat) (w : World)
    (transactionList : list Transaction) (payer : Keypair) (maxRetries : Z) :
  0 <= maxRetries ->
  (Z.to_nat maxRetries + 1 < fuel)%nat ->
  (forall sig w0, exists st w', getSignatureStatus sig true w0 = (Normal st, w')) ->
  exists rs m',
    executeTransactions fuel w transactionList payer maxRetries
    = Some (Normal rs, m')
    /\ length rs = length transactionList
    /\ pushes (trace m') = indexed 0 rs
    /\ Sequential (trace m').
Proof.
  intros Hmax Hfuel Hst.
  destruct (executeTransactions_cases fuel w transactionList payer maxRetries
              Hmax Hfuel)
    as (c & m' & Hrun & H).
  destruct c as [rs|e].
  - destruct H as (-> & Hlen & Hseg).
    exists (results m'), m'. split; [assumption|]. split; [assumption|].
    split; [eapply Segments_pushes; eassumption|].
    intros pre j t r post E. eapply Segments_sequential; eassumption.
  - destruct H as (_ & tr & sig & body & _ & _ & _ & w0 & w' & Hw).
    destruct (Hst sig w0) as (st & w'' & Hn). congruence.
Qed.

End RunTheorems.

(** * Further properties *)

(** ** The batcher: errors, edges, sizes *)

Section BatcherEdges.
Context {L : LedgerClient}.

Lemma mapTransfer_first_invalid fromWallet amount pre d post e :
  (forall d', In d' pre -> Transferable fromWallet amount d') ->
  newPublicKey (owner d) = Abrupt e ->
  mapTransfer fromWallet amount (pre ++ d :: post) = Abrupt e.
Proof.
  induction pre as [|d0 pre IH]; intros Hpre Hd; cbn [app mapTransfer].
  - now rewrite Hd.
  - destruct (Hpre d0 (or_introl eq_refl)) as (pk & ins & -> & ->).
    rewrite IH; [reflexivity | intros; apply Hpre; now right | assumption].
Qed.

(** An owner that is not a key makes the batcher throw the error of the
    key constructor for the first such owner (the drops before it being
    turned into instructions without error), whatever the capacity and
    before any batch is built. *)
Theorem generateTransactions_invalid_owner (fuel : nat) (batchSize : Z)
    (pre post : list Drop) (d : Drop) (fromWallet : PublicKey) (amount : float)
    (e : JsError) :
  (forall d', In d' pre -> Transferable fromWallet amount d') ->
  newPublicKey (owner d) = Abrupt e ->
  generateTransactions fuel batchSize (pre ++ d :: post) fromWallet amount
  = Some (Abrupt e).
Proof.
  intros Hpre Hd. unfold generateTransactions.
  now rewrite (mapTransfer_first_invalid fromWallet amount pre d post e Hpre Hd).
Qed.

Lemma mapTransfer_first_refused fromWallet amount pre d post pk e :
  (forall d', In d' pre -> Transferable fromWallet amount d') ->
  newPublicKey (owner d) = Normal pk ->
  SystemProgram_transfer (transferParams fromWallet amount pk) = Abrupt e ->
  mapTransfer fromWallet amount (pre ++ d :: post) = Abrupt e.
Proof.
  induction pre as [|d0 pre IH]; intros Hpre Hd He; cbn [app mapTransfer].
  - now rewrite Hd, He.
  - destruct (Hpre d0 (or_introl eq_refl)) as (pk0 & ins & -> & ->).
    rewrite IH; [reflexivity | intros; apply Hpre; now right | assumption..].
Qed.

(** A transfer that the library refuses makes the batcher throw the
    library's error for the first such drop, whatever the capacity and
    before any batch is built: lamports that are negative or not an integer
    end the call, they are not skipped. *)
Theorem generateTransactions_refused_transfer (fuel : nat) (batchSize : Z)
    (pre post : list Drop) (d : Drop) (fromWallet : PublicKey) (amount : float)
    (pk : PublicKey) (e : JsError) :
  (forall d', In d' pre -> Transferable fromWallet amount d') ->
  newPublicKey (owner d) = Normal pk ->
  SystemProgram_transfer
    {| fromPubkey := fromWallet;
       toPubkey := pk;
       lamports := PrimFloat.mul amount LAMPORTS_PER_SOL |}
  = Abrupt e ->
  generateTransactions fuel batchSize (pre ++ d :: post) fromWallet amount
  = Some (Abrupt e).
Proof.
  intros Hpre Hd He. unfold generateTransactions.
  now rewrite (mapTransfer_first_refused fromWallet amount pre d post pk e
                 Hpre Hd He).
Qed.

(** With the capacity zero and a drop list that is not empty (and whose
    drops are turned into instructions without error), the number of rounds
    is [Infinity]: the batcher never returns, whatever the fuel. *)
Theorem generateTransactions_zero_capacity_diverges (fuel : nat)
    (dropList : list Drop) (fromWallet : PublicKey) (amount : float) :
  (forall d, In d dropList -> Transferable fromWallet amount d) ->
  dropList <> [] ->
  generateTransactions fuel 0 dropList fromWallet amount = None.
Proof.
  intros Hkeys Hne.
  destruct (mapTransfer_total fromWallet amount dropList Hkeys) as [l Hl].
  eapply generateTransactions_zero_capacity_runs_on; eassumption.
Qed.

(** An empty drop list gives no batch, whatever the capacity: zero,
    negative or positive. *)
Theorem generateTransactions_no_drops (fuel : nat) (batchSize : Z)
    (fromWallet : PublicKey) (amount : float) :
  (0 < fuel)%nat ->
  generateTransactions fuel batchSize [] fromWallet amount = Some (Normal []).
Proof.
  intros Hfuel. destruct fuel; [lia|].
  unfold generateTransactions, ceil_div. cbn.
  destruct (batchSize =? 0); reflexivity.
Qed.

Lemma slices_nth d c l j :
  (j < d)%nat ->
  nth_error (slices d c l) j
  = Some {| instructions := firstn c (skipn (j * c) l);
            recentBlockhash := None |}.
Proof.
  revert l j; induction d; intros l j Hj; [lia|].
  destruct j as [|j]; cbn [slices nth_error].
  - reflexivity.
  - rewrite IHd by lia. rewrite skipn_skipn.
    now replace (j * c + c)%nat with (S j * c)%nat by lia.
Qed.

(** With a capacity of at least one, every batch but the last holds exactly
    [batchSize] instructions, and the last holds at least one: no batch is
    empty, and no batch carries a block hash yet. *)
Theorem generateTransactions_batch_sizes (batchSize : Z) (dropList : list Drop)
    (fromWallet : PublicKey) (amount : float) (fuel : nat) :
  1 <= batchSize ->
  (forall d, In d dropList -> Transferable fromWallet amount d) ->
  (length dropList < fuel)%nat ->
  exists result : list Transaction,
    generateTransactions fuel batchSize dropList fromWallet amount
    = Some (Normal result)
    /\ forall (j : nat) (t : Transaction),
         nth_error result j = Some t ->
         recentBlockhash t = None
         /\ (if (S j <? length result)%nat
             then Z.of_nat (length (instructions t)) = batchSize
             else 1 <= Z.of_nat (length (instructions t)) <= batchSize).
Proof.
  intros Hc Hkeys Hfuel.
  destruct (mapTransfer_total fromWallet amount dropList Hkeys) as [l Hmap].
  pose proof (mapTransfer_length _ _ _ _ Hmap) as Hlen.
  pose proof (generateTransactions_slices _ _ _ _ _ fuel Hc Hmap
                ltac:(lia)) as E.
  cbv zeta in E.
  set (n := Z.of_nat (length l)) in *.
  destruct (ceil_bounds n batchSize ltac:(lia)) as [[Hlo Hhi] _].
  set (k := - (- n / batchSize)) in *.
  assert (0 <= k) by nia.
  eexists. split; [exact E|].
  intros j t Hj. rewrite slices_length.
  assert (Hjd : (j < Z.to_nat k)%nat).
  { rewrite <- (slices_length (Z.to_nat k) (Z.to_nat batchSize) l).
    apply nth_error_Some. congruence. }
  rewrite slices_nth in Hj by assumption.
  inversion Hj; subst t; clear Hj. cbn [instructions recentBlockhash].
  split; [reflexivity|].
  rewrite length_firstn, length_skipn.
  destruct (Nat.ltb_spec (S j) (Z.to_nat k)); subst n; nia.
Qed.

End BatcherEdges.

Lemma generateTransactions_invalid_owner_witness :
  generateTransactions (L := sampleClient) 0 0
    ([mkDrop "ownerA" "mintA"] ++ mkDrop "" "mintB" :: [mkDrop "ownerC" "mintC"])
    "payer" 3
  = Some (Abrupt (newError "Invalid public key input")).
Proof.
  refine (generateTransactions_invalid_owner (L := sampleClient) 0 0
            [mkDrop "ownerA" "mintA"] [mkDrop "ownerC" "mintC"]
            (mkDrop "" "mintB") "payer" 3
            (newError "Invalid public key input") _ _); [|reflexivity].
  intros d' [<-|[]]. eexists; eexists; split; reflexivity.
Defined.

Lemma generateTransactions_refused_transfer_witness :
  generateTransactions (L := sampleClient) 0 5
    ([] ++ mkDrop "ownerA" "mintA" :: [mkDrop "ownerB" "mintB"])
    "payer" (-1)
  = Some (Abrupt (rangeError "The value is out of range")).
Proof.
  refine (generateTransactions_refused_transfer (L := sampleClient) 0 5
            [] [mkDrop "ownerB" "mintB"] (mkDrop "ownerA" "mintA")
            "payer" (-1)%float "ownerA"
            (rangeError "The value is out of range") _ _ _);
    [| reflexivity | reflexivity].
  intros d' [].
Defined.

Lemma generateTransactions_zero_capacity_diverges_witness :
  generateTransactions (L := sampleClient) 1000 0 sampleDrops "payer" 3 = None.
Proof.
  refine (generateTransactions_zero_capacity_diverges (L := sampleClient) 1000
            sampleDrops "payer" 3 _ _); [|discriminate].
  intros d Hd. simpl in Hd.
  destruct Hd as [<-|[<-|[<-|[]]]]; eexists; eexists; split; reflexivity.
Defined.

Lemma generateTransactions_no_drops_witness :
  generateTransactions (L := sampleClient) 1 0 [] "payer" 3 = Some (Normal []).
Proof.
  refine (generateTransactions_no_drops (L := sampleClient) 1 0 "payer" 3 _).
  lia.
Defined.

Lemma generateTransactions_batch_sizes_witness :
  exists result : list Transaction,
    generateTransactions (L := sampleClient) 4 2 sampleDrops "payer" 3
    = Some (Normal result)
    /\ forall (j : nat) (t : Transaction),
         nth_error result j = Some t ->
         recentBlockhash t = None
         /\ (if (S j <? length result)%nat
             then Z.of_nat (length (instructions t)) = 2
             else 1 <= Z.of_nat (length (instructions t)) <= 2).
Proof.
  refine (generateTransactions_batch_sizes (L := sampleClient) 2 sampleDrops
            "payer" 3 4%nat _ _ _); [lia | | simpl; lia].
  intros d Hd. simpl in Hd.
  destruct Hd as [<-|[<-|[<-|[]]]]; eexists; eexists; split; reflexivity.
Defined.

(** ** The pattern on messages: what a match is *)

Lemma strip_prefix_append p s rest :
  strip_prefix p s = Some rest -> s = (p ++ rest)%string.
Proof.
  revert s; induction p as [|a p IH]; intros s H; cbn [strip_prefix] in H.
  - now inversion H.
  - destruct s as [|b s]; [discriminate|].
    destruct (Ascii.eqb_spec a b) as [<-|]; [|discriminate].
    cbn. now rewrite (IH s H).
Qed.

Lemma strip_prefix_of_append p rest :
  strip_prefix p (p ++ rest)%string = Some rest.
Proof.
  induction p as [|a p IH]; cbn; [reflexivity|].
  now rewrite Ascii.eqb_refl.
Qed.

Lemma take_word_spec s :
  exists post,
    s = (take_word s ++ post)%string
    /\ all_word (take_word s) = true
    /\ starts_with_word post = false.
Proof.
  induction s as [|c s (post & Hs & Hw & Hp)]; cbn [take_word].
  - exists EmptyString. auto.
  - destruct (is_word_char c) eqn:Ec.
    + exists post. cbn. rewrite Ec, Hw. split; [now rewrite <- Hs | auto].
    + exists (String c s). cbn. auto.
Qed.

Lemma take_word_of_append w post :
  all_word w = true ->
  starts_with_word post = false ->
  take_word (w ++ post)%string = w.
Proof.
  induction w as [|c w IH]; cbn; intros Hw Hp.
  - destruct post as [|c post]; [reflexivity|]. cbn in *. now rewrite Hp.
  - apply andb_prop in Hw. destruct Hw as [-> Hw]. now rewrite IH.
Qed.

(** The expiry error of the client library names the signature it carries:
    for a signature made of word characters, as base-58 signatures are, the
    pattern reads it back from the message. *)
Lemma expiredError_names_signature (sig : string) :
  sig <> EmptyString ->
  all_word sig = true ->
  let e := expiredError sig
             ("Signature " ++ sig ++ " has expired: block height exceeded.") in
  isTransactionExpiredBlockheightExceededError e = true
  /\ err_signature e = Some sig
  /\ errorSignature e = Some sig.
Proof.
  intros Hne Hw e. split; [reflexivity|]. split; [reflexivity|].
  unfold e, errorSignature, expiredError. cbn [err_message].
  assert (Hh : match_here
                 ("Signature " ++ sig
                  ++ " has expired: block height exceeded.")%string
               = Some sig).
  { unfold match_here. rewrite strip_prefix_of_append.
    rewrite take_word_of_append by (assumption || reflexivity).
    destruct sig; [congruence | reflexivity]. }
  change (("Signature " ++ sig
           ++ " has expired: block height exceeded.")%string)
    with (String "S" ("ignature " ++ sig
                      ++ " has expired: block height exceeded.")%string)
    in *.
  cbn [match_signature]. now rewrite Hh.
Qed.

Lemma match_here_spec s w :
  match_here s = Some w ->
  exists post,
    s = ("Signature " ++ w ++ post)%string
    /\ w <> EmptyString
    /\ all_word w = true
    /\ starts_with_word post = false.
Proof.
  unfold match_here. intros H.
  destruct (strip_prefix "Signature " s) as [rest|] eqn:E; [|discriminate].
  apply strip_prefix_append in E.
  destruct (take_word_spec rest) as (post & Hr & Hw & Hp).
  destruct (take_word rest) as [|c w'] eqn:Et; [discriminate|].
  inversion H; subst w. exists post.
  split; [now rewrite E, Hr|]. split; [discriminate | auto].
Qed.

(** What the pattern extracts: the signature read from a message is a
    run of word characters, not empty and as long as possible, that follows
    the word [Signature] and a space in the message. *)
Theorem match_signature_sound (s w : string) :
  match_signature s = Some w ->
  exists pre post,
    s = (pre ++ "Signature " ++ w ++ post)%string
    /\ w <> EmptyString
    /\ all_word w = true
    /\ starts_with_word post = false.
Proof.
  induction s as [|a s IH]; intros H.
  - simpl in H. discriminate.
  - cbn [match_signature] in H.
    destruct (match_here (String a s)) as [w'|] eqn:E.
    + inversion H; subst w'.
      destruct (match_here_spec _ _ E) as (post & Hs & Hrest).
      exists EmptyString, post. auto.
    + destruct (IH H) as (pre & post & Hs & Hrest).
      exists (String a pre), post. split; [cbn; now rewrite Hs | assumption].
Qed.

Lemma match_signature_sound_witness :
  exists pre post,
    "Transfer failed: Signature 5VERv8-x timed out"
    = (pre ++ "Signature " ++ "5VERv8" ++ post)%string
    /\ "5VERv8" <> EmptyString
    /\ all_word "5VERv8" = true
    /\ starts_with_word post = false.
Proof.
  refine (match_signature_sound
            "Transfer failed: Signature 5VERv8-x timed out" "5VERv8" _).
  reflexivity.
Defined.

(** Which signature the pattern finds: in a message that has no capital S
    before the word [Signature], the run of word characters after
    [Signature] and a space is what is extracted, up to the first character
    that is not a word character. *)
Theorem match_signature_complete (pre w post : string) :
  occurs "S" pre = false ->
  w <> EmptyString ->
  all_word w = true ->
  starts_with_word post = false ->
  match_signature (pre ++ "Signature " ++ w ++ post)%string = Some w.
Proof.
  intros Hpre Hne Hw Hp.
  assert (Hhere : match_here ("Signature " ++ w ++ post)%string = Some w).
  { unfold match_here. rewrite strip_prefix_of_append.
    rewrite take_word_of_append by assumption.
    destruct w; [congruence | reflexivity]. }
  remember ("Signature " ++ w ++ post)%string as tail eqn:Et. clear Et.
  induction pre as [|a pre IH].
  - change (match_signature tail = Some w).
    destruct tail; cbn [match_signature]; now rewrite Hhere.
  - cbn [occurs] in Hpre. apply orb_false_elim in Hpre.
    destruct Hpre as [Ha Hpre].
    change (match_signature (String a (pre ++ tail)) = Some w).
    cbn [match_signature].
    assert (Hno : match_here (String a (pre ++ tail)) = None).
    { unfold match_here. cbn [strip_prefix].
      destruct (Ascii.eqb_spec "S" a) as [<-|]; [discriminate|reflexivity]. }
    rewrite Hno. now apply IH.
Qed.

Lemma match_signature_complete_witness :
  match_signature ("Transfer failed: " ++ "Signature " ++ "5VERv8" ++ "-x timed out")%string
  = Some "5VERv8".
Proof.
  refine (match_signature_complete "Transfer failed: " "5VERv8" "-x timed out"
            _ _ _ _); try reflexivity. discriminate.
Defined.

(** ** The traces of a run *)

Section TraceTheorems.
Context {L : LedgerClient} {World : Type} {C : Connection World}.

Lemma countAttempt_shape i maxRetries error (m : Machine World) :
  exists tr x,
    CountTrace i maxRetries (attempt m) error tr x
    /\ roundPost maxRetries m (counted i maxRetries error m) (Normal false) tr x.
Proof.
  unfold counted. destruct (Z.gtb_spec (attempt m + 1) maxRetries).
  - exists [(i, Push (Rejected error))], (Settles (Rejected error)).
    split; [constructor; lia|].
    repeat split. exists false. split; [reflexivity|]. right; right. cbn. lia.
  - exists [(i, Delay TX_INTERVAL)], Retries.
    split; [constructor; lia|]. repeat split.
Qed.

(** A round that goes on from [m1], reached from [m] by the events [pre]
    with nothing else changed. *)
Lemma roundPost_after maxRetries (m m1 m' : Machine World) c pre tr x :
  trace m1 = trace m ++ pre ->
  instructions (transaction m1) = instructions (transaction m) ->
  results m1 = results m ->
  attempt m1 = attempt m ->
  success m1 = success m ->
  signature m1 = signature m ->
  roundPost maxRetries m1 m' c tr x ->
  roundPost maxRetries m m' c (pre ++ tr) x.
Proof.
  intros Htr Hins Hres Hat Hsu Hsg (Htr' & Hins' & Hx).
  split; [rewrite Htr', Htr; symmetry; apply app_assoc|].
  split; [congruence|].
  destruct x as [s| |e].
  - destruct Hx as (Hr & b & Hc & Hexit). split; [congruence|]. eauto.
  - destruct Hx as (Hc & Hr & Ha & Hs & Hg). repeat split; congruence.
  - destruct Hx as (Hc & Hr). split; congruence.
Qed.

Lemma checkStatus_shape i maxRetries error s (m : Machine World) :
  errorSignature error = Some s ->
  exists c m' tr x,
    checkStatus i s (countAttempt i maxRetries error) m = Some (c, m')
    /\ CatchTrace i maxRetries (attempt m) error tr x
    /\ roundPost maxRetries m m' c tr x.
Proof.
  intros Hs.
  destruct (getSignatureStatus s true (world m)) as [[st|e] w'] eqn:H.
  - destruct (isFinalized st) eqn:Hf.
    + erewrite checkStatus_finalized by eassumption.
      eexists; eexists; eexists; exists (Settles (Fulfilled s)).
      split; [reflexivity|]. split; [eapply Catch_finalized; eassumption|].
      repeat split. exists true. auto.
    + erewrite checkStatus_not_finalized by eassumption.
      rewrite countAttempt_run.
      set (m1 := mkMachine w' (trace m ++ [(i, GetSignatureStatus s (Normal st))])
                   (results m) (attempt m) (success m) (signature m)
                   (transaction m)).
      destruct (countAttempt_shape i maxRetries error m1) as (tr & x & Hc & Hp).
      exists (Normal false), (counted i maxRetries error m1),
        ([(i, GetSignatureStatus s (Normal st))] ++ tr), x.
      split; [reflexivity|].
      split; [now apply Catch_not_finalized|].
      eapply roundPost_after; [| | | | | | exact Hp]; reflexivity.
  - erewrite checkStatus_throws by eassumption.
    eexists; eexists; eexists; exists (Throws e).
    split; [reflexivity|]. split; [eapply Catch_lookup_throws; eassumption|].
    repeat split.
Qed.

Lemma catchBlock_shape i maxRetries error (m : Machine World) :
  signature m = None ->
  exists c m' tr x,
    catchBlock i maxRetries error m = Some (c, m')
    /\ CatchTrace i maxRetries (attempt m) error tr x
    /\ roundPost maxRetries m m' c tr x.
Proof.
  intros Hsig.
  rewrite catchBlock_by_message by (rewrite Hsig; apply andb_false_r).
  destruct (errorSignature error) as [s|] eqn:E.
  - now apply checkStatus_shape.
  - rewrite countAttempt_run.
    destruct (countAttempt_shape i maxRetries error m) as (tr & x & Hc & Hp).
    exists (Normal false), (counted i maxRetries error m), tr, x.
    split; [reflexivity|]. split; [now apply Catch_count | assumption].
Qed.

(** Every round entered without a signature follows one of the shapes of
    [RoundTrace]. *)
Lemma whileBody_shape i maxRetries payer (m : Machine World) :
  signature m = None ->
  exists c m' tr x,
    whileBody i maxRetries payer m = Some (c, m')
    /\ RoundTrace i maxRetries (instructions (transaction m)) (attempt m) tr x
    /\ roundPost maxRetries m m' c tr x.
Proof.
  intros Hsig. rewrite whileBody_unfold.
  destruct (getLatestBlockhash (world m)) as [[[bh lvh]|e] w1] eqn:H1.
  2:{ rewrite (tryBlock_latest_throws i payer m e w1 H1).
      edestruct (catchBlock_shape i maxRetries e) as (c & m' & tr & x & -> & Hc & Hp);
        [|eexists; eexists; eexists; exists x; split; [reflexivity|]; split;
          [apply Round_latest_throws; exact Hc
          |eapply roundPost_after; [| | | | | |exact Hp]; reflexivity]].
      exact Hsig. }
  destruct (getBlockHeight w1) as [[h|e] w2] eqn:H2.
  2:{ rewrite (tryBlock_height_throws i payer m bh lvh w1 e w2 H1 H2).
      edestruct (catchBlock_shape i maxRetries e) as (c & m' & tr & x & -> & Hc & Hp);
        [|eexists; eexists; eexists; exists x; split; [reflexivity|]; split;
          [apply Round_height_throws with (bh := bh) (lvh := lvh); exact Hc
          |eapply roundPost_after; [| | | | | |exact Hp]; reflexivity]].
      exact Hsig. }
  destruct (Z.gtb_spec h lvh) as [Hh|Hh].
  { rewrite (tryBlock_local_expiry i payer m bh lvh w1 h w2 H1 H2 ltac:(lia)).
    rewrite catchBlock_by_message by reflexivity.
    unfold errorSignature. cbn [newError err_message].
    rewrite expiredMessage_no_match, countAttempt_run.
    match goal with |- context [counted _ _ _ ?m1] =>
      destruct (countAttempt_shape i maxRetries
                  (newError (expiredMessage i h lvh)) m1) as (tr & x & Hc & Hp)
    end.
    eexists; eexists; eexists; exists x. split; [reflexivity|].
    split; [apply Round_expired with (bh := bh) (lvh := lvh) (h := h);
            [lia | exact Hc]|].
    eapply roundPost_after; [| | | | | |exact Hp]; reflexivity. }
  destruct (sendAndConfirmTransaction (stamped m bh) [payer] "finalized" w2)
    as [[sig|e] w3] eqn:H3.
  - rewrite (tryBlock_success i payer m bh lvh w1 h w2 sig w3 H1 H2 Hh H3).
    eexists; eexists; eexists; exists (Settles (Fulfilled sig)).
    split; [reflexivity|].
    split; [apply Round_send_returns with (lvh := lvh) (h := h); assumption|].
    repeat split. exists false. auto.
  - rewrite (tryBlock_send_throws i payer m bh lvh w1 h w2 e w3 H1 H2 Hh H3).
    edestruct (catchBlock_shape i maxRetries e) as (c & m' & tr & x & -> & Hc & Hp);
      [|eexists; eexists; eexists; exists x; split; [reflexivity|]; split;
        [apply Round_send_throws with (lvh := lvh) (h := h); [assumption | exact Hc]
        |eapply roundPost_after; [| | | | | |exact Hp]; reflexivity]].
    exact Hsig.
Qed.

(** Whenever the retry loop ends, its events follow [LoopTrace]. *)
Lemma whileLoop_shape i maxRetries payer :
  forall (fuel : nat) (m : Machine World) c m',
    success m = false ->
    signature m = None ->
    whileLoop fuel i maxRetries payer m = Some (c, m') ->
    exists tr x,
      LoopTrace i maxRetries (instructions (transaction m)) (attempt m) tr x
      /\ trace m' = trace m ++ tr
      /\ results m' = results m ++ outcomes x
      /\ c = match x with Escapes e => Abrupt e | _ => Normal tt end.
Proof.
  induction fuel as [|fuel IH]; intros m c m' Hs Hsig Hrun; [discriminate|].
  rewrite whileLoop_unfold, Hs in Hrun. cbn [negb] in Hrun.
  rewrite andb_true_r in Hrun.
  destruct (Z.leb_spec (attempt m) maxRetries) as [Ha|Ha].
  2:{ inversion Hrun; subst. exists [], Nothing.
      split; [constructor; lia|]. now rewrite !app_nil_r. }
  destruct (whileBody_shape i maxRetries payer m Hsig)
    as (c1 & m1 & tr & x & E & Hround & Htr & Hins & Hx).
  rewrite E in Hrun.
  destruct x as [s| |e].
  - destruct Hx as (Hres & b & -> & Hexit).
    assert (Hend : c = Normal tt /\ m' = m1).
    { destruct b; [now inversion Hrun|].
      destruct fuel; [discriminate|].
      rewrite whileLoop_unfold in Hrun.
      assert (E0 : (attempt m1 <=? maxRetries) && negb (success m1) = false).
      { destruct Hexit as [Hb|[->|Hgt]];
          [discriminate | apply andb_false_r |].
        destruct (Z.leb_spec (attempt m1) maxRetries); [lia | reflexivity]. }
      rewrite E0 in Hrun. now inversion Hrun. }
    destruct Hend as [-> ->].
    exists tr, (Outcome s). split; [now apply Loop_settles | auto].
  - destruct Hx as (-> & Hres & Hat & Hsu & Hsg).
    destruct (IH m1 c m') as (tr' & x & Hloop & Htr' & Hres' & Hc);
      try congruence.
    exists (tr ++ tr'), x.
    split; [eapply Loop_retries; [assumption | eassumption|];
            rewrite <- Hat, <- Hins; assumption|].
    split; [rewrite Htr', Htr; symmetry; apply app_assoc|].
    split; [congruence | assumption].
  - destruct Hx as (-> & Hres). inversion Hrun; subst.
    exists tr, (Escapes e). split; [now apply Loop_throws|].
    split; [assumption|]. split; [cbn; now rewrite app_nil_r | reflexivity].
Qed.

Lemma forLoop_shape fuel len maxRetries payer :
  forall (entries : list Transaction) (i : Z) (m : Machine World) c m',
    forLoop fuel len maxRetries payer i entries m = Some (c, m') ->
    exists tr rs oe,
      RunTrace len maxRetries i entries tr rs oe
      /\ trace m' = trace m ++ tr
      /\ results m' = results m ++ rs
      /\ c = match oe with Some e => Abrupt e | None => Normal tt end.
Proof.
  induction entries as [|t rest IH]; intros i m c m' Hrun.
  - inversion Hrun; subst. exists [], [], None.
    split; [constructor|]. now rewrite !app_nil_r.
  - cbn [forLoop] in Hrun. unfold bind at 1 in Hrun.
    rewrite forBody_unfold in Hrun.
    destruct (whileLoop fuel i maxRetries payer (entered t m))
      as [[c1 m1]|] eqn:E; [|discriminate].
    destruct (whileLoop_shape i maxRetries payer fuel (entered t m) c1 m1
                eq_refl eq_refl E) as (tr & x & Hloop & Htr & Hres & Hc).
    cbn [entered transaction attempt trace results] in Hloop, Htr, Hres.
    destruct x as [s|e|]; subst c1.
    + set (m2 := if i <? len - 1
                 then mkMachine (setTimeout TX_INTERVAL (world m1))
                        (trace m1 ++ [(i, Delay TX_INTERVAL)]) (results m1)
                        (attempt m1) (success m1) (signature m1) (transaction m1)
                 else m1).
      assert (Hm2 : trace m2 = trace m ++ tr ++ pause len i
                    /\ results m2 = results m ++ [s]).
      { unfold m2, pause. destruct (i <? len - 1); cbn [trace results].
        - rewrite Htr, <- app_assoc. auto.
        - rewrite app_nil_r. auto. }
      assert (Hrun' : forLoop fuel len maxRetries payer (i + 1) rest m2
                      = Some (c, m')).
      { unfold m2. destruct (i <? len - 1); exact Hrun. }
      destruct (IH (i + 1) m2 c m' Hrun') as (tr' & rs & oe & Hr & Htr' & Hres' & Hc).
      destruct Hm2 as [Ht2 Hr2].
      exists (tr ++ pause len i ++ tr'), (outcomes (Outcome s) ++ rs), oe.
      split; [apply Run_entry; [assumption | discriminate | assumption]|].
      split; [rewrite Htr', Ht2, <- !app_assoc; reflexivity|].
      split; [rewrite Hres', Hr2, <- app_assoc; reflexivity | assumption].
    + inversion Hrun; subst. exists tr, [], (Some e).
      split; [now apply Run_escapes | auto].
    + set (m2 := if i <? len - 1
                 then mkMachine (setTimeout TX_INTERVAL (world m1))
                        (trace m1 ++ [(i, Delay TX_INTERVAL)]) (results m1)
                        (attempt m1) (success m1) (signature m1) (transaction m1)
                 else m1).
      assert (Hm2 : trace m2 = trace m ++ tr ++ pause len i
                    /\ results m2 = results m).
      { unfold m2, pause. cbn [outcomes] in Hres. rewrite app_nil_r in Hres.
        destruct (i <? len - 1); cbn [trace results].
        - rewrite Htr, <- app_assoc. auto.
        - rewrite app_nil_r. auto. }
      assert (Hrun' : forLoop fuel len maxRetries payer (i + 1) rest m2
                      = Some (c, m')).
      { unfold m2. destruct (i <? len - 1); exact Hrun. }
      destruct (IH (i + 1) m2 c m' Hrun') as (tr' & rs & oe & Hr & Htr' & Hres' & Hc).
      destruct Hm2 as [Ht2 Hr2].
      exists (tr ++ pause len i ++ tr'), (outcomes Nothing ++ rs), oe.
      split; [apply Run_entry; [assumption | discriminate | assumption]|].
      split; [rewrite Htr', Ht2, <- !app_assoc; reflexivity|].
      split; [rewrite Hres', Hr2; reflexivity | assumption].
Qed.

(** The trace of every run that ends follows [RunTrace], whatever the
    network does, for every [maxRetries]. *)
Lemma executeTransactions_shape fuel (w : World) transactionList payer
    maxRetries c (m' : Machine World) :
  executeTransactions fuel w transactionList payer maxRetries = Some (c, m') ->
  exists oe,
    RunTrace (Z.of_nat (length transactionList)) maxRetries 0 transactionList
      (trace m') (results m') oe
    /\ c = match oe with Some e => Abrupt e | None => Normal (results m') end.
Proof.
  unfold executeTransactions, bind, gets. intros Hrun.
  destruct (forLoop fuel (Z.of_nat (length transactionList)) maxRetries payer 0
              transactionList (start w)) as [[c1 m1]|] eqn:E; [|discriminate].
  destruct (forLoop_shape _ _ _ _ _ _ _ _ _ E)
    as (tr & rs & oe & Hr & Htr & Hres & Hc).
  cbn [start trace results app] in Htr, Hres.
  exists oe. rewrite Hc in Hrun.
  destruct oe as [e|]; inversion Hrun as [[Hc' Hm]]; rewrite <- Hm, Htr, Hres;
    auto.
Qed.

End TraceTheorems.

(** ** What every run keeps to *)

Section TraceFacts.
Context {L : LedgerClient}.

Lemma CountTrace_cases i maxRetries a error tr x :
  CountTrace i maxRetries a error tr x ->
  (tr = [(i, Push (Rejected error))] /\ x = Settles (Rejected error)
   /\ a + 1 > maxRetries)
  \/ (tr = [(i, Delay TX_INTERVAL)] /\ x = Retries /\ a + 1 <= maxRetries).
Proof. destruct 1; auto. Qed.

(** The events of a round all carry the index of its transaction. *)
Lemma RoundTrace_index i maxRetries ins a tr x :
  RoundTrace i maxRetries ins a tr x -> Forall (fun ev => fst ev = i) tr.
Proof.
  assert (Hcount : forall e tr x, CountTrace i maxRetries a e tr x ->
                                  Forall (fun ev => fst ev = i) tr).
  { intros e tr0 x0 H. destruct H; repeat constructor. }
  assert (Hcatch : forall e tr x, CatchTrace i maxRetries a e tr x ->
                                  Forall (fun ev => fst ev = i) tr).
  { intros e tr0 x0 H. destruct H; eauto; repeat constructor; eauto. }
  destruct 1; repeat (apply Forall_cons; [reflexivity|]); eauto.
Qed.

Lemma LoopTrace_index i maxRetries ins a tr x :
  LoopTrace i maxRetries ins a tr x -> Forall (fun ev => fst ev = i) tr.
Proof.
  induction 1; try (eapply RoundTrace_index; eassumption).
  - constructor.
  - apply Forall_app. split; [eapply RoundTrace_index; eassumption | assumption].
Qed.

Lemma pause_index len i : Forall (fun ev : Event => fst ev = i) (pause len i).
Proof. unfold pause. destruct (i <? len - 1); repeat constructor. Qed.

Lemma RunTrace_index len maxRetries i entries tr rs oe :
  RunTrace len maxRetries i entries tr rs oe ->
  Forall (fun ev => i <= fst ev < i + Z.of_nat (length entries)) tr.
Proof.
  induction 1 as [i|i t rest tr x tr' rs oe Hloop _ _ IH|i t rest tr e Hloop].
  - constructor.
  - apply LoopTrace_index in Hloop.
    pose proof (pause_index len i) as Hp.
    rewrite Forall_forall in *. intros ev Hin. cbn [length].
    apply in_app_or in Hin. destruct Hin as [Hin|Hin].
    + rewrite (Hloop ev Hin). lia.
    + apply in_app_or in Hin. destruct Hin as [Hin|Hin].
      * rewrite (Hp ev Hin). lia.
      * specialize (IH ev Hin). lia.
  - apply LoopTrace_index in Hloop.
    rewrite Forall_forall in *. intros ev Hin. cbn [length].
    rewrite (Hloop ev Hin). lia.
Qed.

(** Properties of an event and of what precedes it, which hold in every
    round and survive more events in front, hold in every run, for the
    instructions of the transaction the event belongs to. *)
Section Local.
Variable good : list TransactionInstruction -> list Event -> Event -> Prop.
Hypothesis good_more :
  forall ins l pre ev, good ins pre ev -> good ins (l ++ pre) ev.
Hypothesis good_round :
  forall i maxRetries ins a tr x,
    RoundTrace i maxRetries ins a tr x ->
    forall pre ev post, tr = pre ++ ev :: post -> good ins pre ev.
Hypothesis good_delay :
  forall ins pre i, good ins pre (i, Delay TX_INTERVAL).

Lemma LoopTrace_local i maxRetries ins a tr x :
  LoopTrace i maxRetries ins a tr x ->
  forall pre ev post, tr = pre ++ ev :: post -> good ins pre ev.
Proof.
  induction 1 as [a Ha|a tr s Ha Hr|a tr e Ha Hr|a tr tr' x Ha Hr Hl IH];
    intros pre ev post E; try (eapply good_round; eassumption).
  - destruct pre; discriminate.
  - apply app_eq_elt in E. destruct E as [(mid & E & _)|(mid & -> & E)].
    + eapply good_round; eassumption.
    + apply good_more. eapply IH; eassumption.
Qed.

Lemma RunTrace_local len maxRetries i entries tr rs oe :
  RunTrace len maxRetries i entries tr rs oe ->
  forall pre ev post,
    tr = pre ++ ev :: post ->
    exists tx,
      nth_error entries (Z.to_nat (fst ev - i)) = Some tx
      /\ i <= fst ev
      /\ good (instructions tx) pre ev.
Proof.
  induction 1 as [i|i t rest tr x tr' rs oe Hloop _ Hrun IH|i t rest tr e Hloop];
    intros pre ev post E.
  - destruct pre; discriminate.
  - apply app_eq_elt in E. destruct E as [(mid & E & _)|(mid & -> & E)].
    + pose proof (LoopTrace_index _ _ _ _ _ _ Hloop) as Hi.
      rewrite Forall_forall in Hi.
      rewrite (Hi ev) by (rewrite E; apply in_elt).
      exists t. rewrite Z.sub_diag. split; [reflexivity|]. split; [lia|].
      eapply LoopTrace_local; eassumption.
    + apply app_eq_elt in E. destruct E as [(mid' & E & _)|(mid' & -> & E)].
      * unfold pause in E. destruct (i <? len - 1); [|destruct mid; discriminate].
        destruct mid as [|? [|? ?]]; try discriminate.
        inversion E; subst. 
        pose proof (RunTrace_index _ _ _ _ _ _ _ Hrun) as Hi.
        exists t. cbn [fst]. rewrite Z.sub_diag.
        split; [reflexivity|]. split; [lia|]. apply good_delay.
      * destruct (IH _ _ _ E) as (tx & Hn & Hle & Hg).
        exists tx. split; [|split; [lia|]].
        -- replace (Z.to_nat (fst ev - i)) with (S (Z.to_nat (fst ev - (i + 1))))
             by lia. exact Hn.
        -- rewrite app_assoc. now apply good_more.
  - pose proof (LoopTrace_index _ _ _ _ _ _ Hloop) as Hi.
    rewrite Forall_forall in Hi.
    rewrite (Hi ev) by (rewrite E; apply in_elt).
    exists t. rewrite Z.sub_diag. split; [reflexivity|]. split; [lia|].
    eapply LoopTrace_local; eassumption.
Qed.

End Local.

Lemma freshSend_run len maxRetries i entries tr rs oe :
  RunTrace len maxRetries i entries tr rs oe ->
  forall pre ev post,
    tr = pre ++ ev :: post ->
    exists tx,
      nth_error entries (Z.to_nat (fst ev - i)) = Some tx
      /\ i <= fst ev
      /\ freshSend (instructions tx) pre ev.
Proof.
  apply RunTrace_local.
  - intros ins l pre ev H t r Hs.
    destruct (H t r Hs) as (pre' & bh & lvh & h & -> & Hh & Ht).
    exists (l ++ pre'), bh, lvh, h. rewrite app_assoc. auto.
  - intros i0 mr ins a tr0 x H.
    shapes H; intros pre ev post E; cbn [app] in E; locate; subst;
      intros t r Hs; cbn [snd] in Hs; try discriminate;
      inversion Hs; subst;
      eexists [_]; eexists; eexists; eexists;
      (split; [reflexivity|]); (split; [eassumption | reflexivity]).
  - intros ins pre i0 t r Hs. discriminate.
Qed.

Lemma evidenced_run len maxRetries i entries tr rs oe :
  RunTrace len maxRetries i entries tr rs oe ->
  forall pre ev post,
    tr = pre ++ ev :: post ->
    exists tx,
      nth_error entries (Z.to_nat (fst ev - i)) = Some tx
      /\ i <= fst ev
      /\ evidenced (instructions tx) pre ev.
Proof.
  apply RunTrace_local.
  - intros ins l pre ev H s Hs.
    destruct (H s Hs) as (pre' & a & -> & Ha).
    exists (l ++ pre'), a. rewrite app_assoc. auto.
  - intros i0 mr ins a tr0 x H.
    shapes H; intros pre ev post E; cbn [app] in E; locate; subst;
      intros s0 Hs; cbn [snd] in Hs; try discriminate;
      inversion Hs; subst;
      (eexists [_; _; _]; eexists; split; [reflexivity|]; eauto)
      || (eexists [_; _; _; _]; eexists; split; [reflexivity|]; eauto)
      || (eexists [_; _]; eexists; split; [reflexivity|]; eauto).
  - intros ins pre i0 s Hs. discriminate.
Qed.

Lemma readFromMessage_run len maxRetries i entries tr rs oe :
  RunTrace len maxRetries i entries tr rs oe ->
  forall pre ev post,
    tr = pre ++ ev :: post ->
    exists tx,
      nth_error entries (Z.to_nat (fst ev - i)) = Some tx
      /\ i <= fst ev
      /\ readFromMessage (instructions tx) pre ev.
Proof.
  apply RunTrace_local.
  - intros ins l pre ev H s r Hs.
    destruct (H s r Hs) as (pre' & a & e & -> & Ha).
    exists (l ++ pre'), a, e. rewrite app_assoc. auto.
  - intros i0 mr ins a tr0 x H.
    shapes H; intros pre ev post E; cbn [app] in E; locate; subst;
      intros s0 r0 Hs; cbn [snd] in Hs; try discriminate;
      inversion Hs; subst;
      (eexists [_]; eexists; eexists; split; [reflexivity|];
       split; [reflexivity | assumption])
      || (eexists [_; _]; eexists; eexists; split; [reflexivity|];
          split; [reflexivity | assumption])
      || (eexists [_; _; _]; eexists; eexists; split; [reflexivity|];
          split; [reflexivity | assumption]).
  - intros ins pre i0 s r Hs. discriminate.
Qed.

End TraceFacts.

(** ** Attempts and outcomes, counted *)

Section TraceCounts.
Context {L : LedgerClient}.

(** A round announces its attempt once, pushes the outcome it settles on
    and nothing else, last; it rejects only in the last attempt allowed and
    asks for another attempt only when one is left. *)
Lemma RoundTrace_counts i maxRetries ins a tr x :
  RoundTrace i maxRetries ins a tr x ->
  attempts tr = [a]
  /\ pushes tr = match x with Settles s => [(i, s)] | _ => [] end
  /\ (forall s, x = Settles s -> tr = removelast tr ++ [(i, Push s)])
  /\ (forall e, x = Settles (Rejected e) -> a + 1 > maxRetries)
  /\ (x = Retries -> a + 1 <= maxRetries).
Proof.
  intros H.
  shapes H;
    (split; [reflexivity|]); (split; [reflexivity|]);
    (split; [intros ? Hs; inversion Hs; subst; reflexivity|]);
    (split; [intros ? Hs; inversion Hs; subst; assumption|]);
    intros Hs; try discriminate Hs; assumption.
Qed.

(** [a; a + 1; ...; a + k - 1] *)
Lemma range_shift a k :
  a :: map (fun n => a + 1 + Z.of_nat n) (seq 0 k)
  = map (fun n => a + Z.of_nat n) (seq 0 (S k)).
Proof.
  cbn [seq map]. rewrite Z.add_0_r. f_equal.
  rewrite <- seq_shift, map_map. apply map_ext. intros n. lia.
Qed.

Lemma LoopTrace_counts i maxRetries ins a tr x :
  LoopTrace i maxRetries ins a tr x ->
  pushes tr = map (pair i) (outcomes x)
  /\ (forall s, x = Outcome s -> exists pre, tr = pre ++ [(i, Push s)])
  /\ (x = Nothing -> a > maxRetries)
  /\ exists k,
       attempts tr = map (fun n => a + Z.of_nat n) (seq 0 k)
       /\ Z.of_nat k <= Z.max 0 (maxRetries + 1 - a)
       /\ (forall e, x = Outcome (Rejected e) -> a + Z.of_nat k = maxRetries + 1).
Proof.
  induction 1 as [a Ha|a tr s Ha Hr|a tr e Ha Hr|a tr tr' x Ha Hr Hl IH].
  - split; [reflexivity|]. split; [intros; discriminate|].
    split; [intros; assumption|].
    exists 0%nat. split; [reflexivity|]. split; [lia | intros; discriminate].
  - destruct (RoundTrace_counts _ _ _ _ _ _ Hr) as (Hat & Hpu & Hlast & Hrej & _).
    split; [assumption|]. split.
    { intros s0 Hs. inversion Hs; subst. eexists. apply Hlast. reflexivity. }
    split; [intros; discriminate|].
    exists 1%nat. cbn [seq map]. rewrite Z.add_0_r.
    split; [assumption|]. split; [lia|].
    intros e He. inversion He; subst.
    specialize (Hrej e eq_refl). lia.
  - destruct (RoundTrace_counts _ _ _ _ _ _ Hr) as (Hat & Hpu & _).
    split; [assumption|]. split; [intros; discriminate|].
    split; [intros; discriminate|].
    exists 1%nat. cbn [seq map]. rewrite Z.add_0_r.
    split; [assumption|]. split; [lia | intros; discriminate].
  - destruct (RoundTrace_counts _ _ _ _ _ _ Hr) as (Hat & Hpu & _ & _ & Hre).
    specialize (Hre eq_refl).
    destruct IH as (Hpu' & Hlast' & Hno & k & Hat' & Hk & Hrej).
    rewrite pushes_app, attempts_app, Hpu, Hat, Hpu', Hat'.
    split; [reflexivity|]. split.
    { intros s Hs. destruct (Hlast' s Hs) as [pre ->].
      exists (tr ++ pre). apply app_assoc. }
    split; [intros Hx; specialize (Hno Hx); lia|].
    exists (S k). cbn [app]. rewrite range_shift.
    split; [reflexivity|]. split; [lia|].
    intros e He. specialize (Hrej e He). lia.
Qed.

Lemma filter_index_same j (tr : list Event) :
  Forall (fun ev => fst ev = j) tr ->
  filter (fun ev => fst ev =? j) tr = tr.
Proof.
  induction 1 as [|ev tr Hev _ IH]; [reflexivity|].
  cbn [filter]. rewrite Hev, Z.eqb_refl. now rewrite IH.
Qed.

Lemma filter_index_other j (tr : list Event) :
  Forall (fun ev => fst ev <> j) tr ->
  filter (fun ev => fst ev =? j) tr = [].
Proof.
  induction 1 as [|ev tr Hev _ IH]; [reflexivity|].
  cbn [filter]. destruct (Z.eqb_spec (fst ev) j); [contradiction | assumption].
Qed.

Lemma pause_quiet len i :
  attempts (pause len i) = [] /\ pushes (pause len i) = [].
Proof. unfold pause. destruct (i <? len - 1); split; reflexivity. Qed.

Lemma in_pushes (tr : list Event) j s :
  In (j, Push s) tr -> In (j, s) (pushes tr).
Proof.
  induction tr as [|ev tr IH]; intros H; [destruct H|].
  rewrite pushes_cons. apply in_or_app.
  destruct H as [->|H]; [left; now left | right; auto].
Qed.

(** In a run every transaction is attempted at most [maxRetries + 1] times,
    the attempts being numbered from zero, and one that is rejected was
    attempted exactly that often. *)
Lemma RunTrace_attempts len maxRetries i entries tr rs oe :
  RunTrace len maxRetries i entries tr rs oe ->
  forall j,
    exists k,
      attemptsOf j tr = upto k
      /\ Z.of_nat k <= Z.max 0 (maxRetries + 1)
      /\ (forall e, In (j, Push (Rejected e)) tr -> Z.of_nat k = maxRetries + 1).
Proof.
  assert (Hupto : forall k, map (fun n => 0 + Z.of_nat n) (seq 0 k) = upto k).
  { intros k. apply map_ext. intros n. lia. }
  induction 1 as [i|i t rest tr x tr' rs oe Hloop _ Hrun IH|i t rest tr e Hloop];
    intros j.
  - exists 0%nat. repeat split; try lia. intros e [].
  - pose proof (LoopTrace_index _ _ _ _ _ _ Hloop) as Hi.
    pose proof (pause_index len i) as Hp.
    pose proof (RunTrace_index _ _ _ _ _ _ _ Hrun) as Hr.
    destruct (LoopTrace_counts _ _ _ _ _ _ Hloop)
      as (Hpu & _ & _ & k & Hat & Hk & Hrej).
    unfold attemptsOf. rewrite !filter_app.
    destruct (Z.eq_dec j i) as [->|Hne].
    + rewrite (filter_index_same i tr Hi), (filter_index_same i _ Hp).
      rewrite (filter_index_other i tr')
        by (eapply Forall_impl; [|exact Hr]; cbn; intros; lia).
      rewrite app_nil_r, attempts_app, (proj1 (pause_quiet len i)), app_nil_r.
      exists k. rewrite Hat, Hupto.
      split; [reflexivity|]. split; [lia|].
      intros e Hin.
      assert (Hin' : In (i, Push (Rejected e)) tr).
      { apply in_app_or in Hin. destruct Hin as [Hin|Hin]; [assumption|].
        apply in_app_or in Hin. destruct Hin as [Hin|Hin].
        - unfold pause in Hin. destruct (i <? len - 1); [|destruct Hin].
          destruct Hin as [Hin|[]]. discriminate.
        - rewrite Forall_forall in Hr. specialize (Hr _ Hin). cbn in Hr. lia. }
      apply in_pushes in Hin'. rewrite Hpu in Hin'.
      destruct x as [s| |]; cbn in Hin'; try contradiction.
      destruct Hin' as [Hin'|[]]. inversion Hin'; subst.
      specialize (Hrej e eq_refl). lia.
    + rewrite (filter_index_other j tr)
        by (eapply Forall_impl; [|exact Hi]; cbn; intros; lia).
      rewrite (filter_index_other j (pause len i))
        by (eapply Forall_impl; [|exact Hp]; cbn; intros; lia).
      cbn [app]. destruct (IH j) as (k' & Hat' & Hk' & Hrej').
      exists k'. split; [exact Hat'|]. split; [assumption|].
      intros e Hin. apply (Hrej' e).
      apply in_app_or in Hin. destruct Hin as [Hin|Hin].
      * rewrite Forall_forall in Hi. specialize (Hi _ Hin). cbn in Hi. lia.
      * apply in_app_or in Hin. destruct Hin as [Hin|Hin]; [|assumption].
        rewrite Forall_forall in Hp. specialize (Hp _ Hin). cbn in Hp. lia.
  - pose proof (LoopTrace_index _ _ _ _ _ _ Hloop) as Hi.
    destruct (LoopTrace_counts _ _ _ _ _ _ Hloop)
      as (Hpu & _ & _ & k & Hat & Hk & Hrej).
    unfold attemptsOf.
    destruct (Z.eq_dec j i) as [->|Hne].
    + rewrite (filter_index_same i tr Hi). exists k. rewrite Hat, Hupto.
      split; [reflexivity|]. split; [lia|].
      intros e0 Hin. apply in_pushes in Hin. rewrite Hpu in Hin. destruct Hin.
    + rewrite (filter_index_other j tr)
        by (eapply Forall_impl; [|exact Hi]; cbn; intros; lia).
      exists 0%nat. split; [reflexivity|]. split; [lia|].
      intros e0 Hin. rewrite Forall_forall in Hi.
      specialize (Hi _ Hin). cbn in Hi. lia.
Qed.

(** The outcomes of a run are pushed in the order of the transactions, at
    most one for each. *)
Lemma RunTrace_pushes len maxRetries i entries tr rs oe :
  RunTrace len maxRetries i entries tr rs oe ->
  map snd (pushes tr) = rs
  /\ Forall (fun p => i <= fst p) (pushes tr)
  /\ StronglySorted Z.lt (map fst (pushes tr)).
Proof.
  induction 1 as [i|i t rest tr x tr' rs oe Hloop _ Hrun IH|i t rest tr e Hloop].
  - repeat split; constructor.
  - destruct (LoopTrace_counts _ _ _ _ _ _ Hloop) as (Hpu & _).
    destruct IH as (Hrs & Hlo & Hsorted).
    rewrite !pushes_app, (proj2 (pause_quiet len i)), Hpu. cbn [app].
    destruct x as [s|e|]; cbn [outcomes map app].
    + split; [now rewrite Hrs|]. split.
      * constructor; [cbn; lia|].
        eapply Forall_impl; [|exact Hlo]. cbn. intros; lia.
      * constructor; [assumption|].
        rewrite Forall_map. eapply Forall_impl; [|exact Hlo]. cbn. intros; lia.
    + split; [assumption|]. split; [|assumption].
      eapply Forall_impl; [|exact Hlo]. cbn. intros; lia.
    + split; [assumption|]. split; [|assumption].
      eapply Forall_impl; [|exact Hlo]. cbn. intros; lia.
  - destruct (LoopTrace_counts _ _ _ _ _ _ Hloop) as (Hpu & _).
    rewrite Hpu. repeat split; constructor.
Qed.

(** A run that returns, over a list that is not empty and with
    [0 <= maxRetries], ends with the push of the last outcome: no delay
    follows the last transaction. *)
Lemma RunTrace_last len maxRetries i entries tr rs :
  RunTrace len maxRetries i entries tr rs None ->
  0 <= maxRetries ->
  entries <> [] ->
  i + Z.of_nat (length entries) = len ->
  exists pre s, tr = pre ++ [(len - 1, Push s)].
Proof.
  intros H. remember None as oe eqn:Hoe.
  induction H as [i|i t rest tr x tr' rs oe Hloop Hx Hrun IH|i t rest tr e Hloop];
    intros Hmax Hne Hlen; try congruence.
  destruct (LoopTrace_counts _ _ _ _ _ _ Hloop) as (_ & Hlast & Hno & _).
  destruct x as [s|e|]; [|now destruct (Hx e)|specialize (Hno eq_refl); lia].
  destruct (Hlast s eq_refl) as [pre ->].
  destruct rest as [|t' rest].
  - inversion Hrun; subst. cbn [length] in *.
    unfold pause. destruct (Z.ltb_spec i (i + Z.of_nat 1 - 1)); [lia|].
    exists pre, s. cbn [app]. rewrite app_nil_r.
    now replace (i + Z.of_nat 1 - 1) with i by lia.
  - destruct (IH Hoe Hmax ltac:(discriminate) ltac:(cbn [length] in *; lia))
      as (pre' & s' & ->).
    exists ((pre ++ [(i, Push s)]) ++ pause len i ++ pre'), s'.
    now rewrite <- !app_assoc.
Qed.

End TraceCounts.

(** ** Runs of executeTransactions, whatever the network does *)

Section RunInvariants.
Context {L : LedgerClient} {World : Type} {C : Connection World}.

Lemma index_from_zero (entries : list Transaction) (j : Z) tx :
  0 <= j ->
  nth_error entries (Z.to_nat (j - 0)) = Some tx ->
  index entries j = Some tx.
Proof.
  intros Hj H. unfold index. destruct (Z.ltb_spec j 0); [lia|].
  now rewrite Z.sub_0_r in H.
Qed.

(** Every submission of a run comes right after a block hash and a block
    height were fetched for the same transaction, with the height within the
    validity of the block hash; what is submitted is the transaction of that
    index with its instructions unchanged and that block hash attached. *)
Theorem submissions_are_fresh (fuel : nat) (w : World)
    (transactionList : list Transaction) (payer : Keypair) (maxRetries : Z)
    c (m' : Machine World) pre j t r post :
  executeTransactions fuel w transactionList payer maxRetries = Some (c, m') ->
  trace m' = pre ++ (j, Send t r) :: post ->
  exists pre' bh lvh h tx,
    pre = pre' ++ [(j, GetLatestBlockhash (Normal (bh, lvh)));
                   (j, GetBlockHeight (Normal h))]
    /\ h <= lvh
    /\ index transactionList j = Some tx
    /\ t = {| instructions := instructions tx; recentBlockhash := Some bh |}.
Proof.
  intros Hrun Htr.
  destruct (executeTransactions_shape _ _ _ _ _ _ _ Hrun) as (oe & Hshape & _).
  destruct (freshSend_run _ _ _ _ _ _ _ Hshape _ _ _ Htr)
    as (tx & Hn & Hj & Hgood).
  destruct (Hgood t r eq_refl) as (pre' & bh & lvh & h & Hpre & Hh & Ht).
  exists pre', bh, lvh, h, tx. cbn [fst] in *.
  repeat split; try assumption. now apply index_from_zero.
Qed.

(** An outcome [Fulfilled] is pushed only on evidence: right after the
    submission that returned its signature, or right after a status lookup
    that reported that signature [finalized]. *)
Theorem fulfilled_on_evidence (fuel : nat) (w : World)
    (transactionList : list Transaction) (payer : Keypair) (maxRetries : Z)
    c (m' : Machine World) pre j s post :
  executeTransactions fuel w transactionList payer maxRetries = Some (c, m') ->
  trace m' = pre ++ (j, Push (Fulfilled s)) :: post ->
  exists pre' a,
    pre = pre' ++ [(j, a)]
    /\ ((exists t, a = Send t (Normal s))
        \/ (exists st, a = GetSignatureStatus s (Normal st)
                       /\ isFinalized st = true)).
Proof.
  intros Hrun Htr.
  destruct (executeTransactions_shape _ _ _ _ _ _ _ Hrun) as (oe & Hshape & _).
  destruct (evidenced_run _ _ _ _ _ _ _ Hshape _ _ _ Htr)
    as (tx & _ & _ & Hgood).
  exact (Hgood s eq_refl).
Qed.

(** Every status lookup of a run comes right after a call that failed, and
    asks for the signature that the pattern reads from the message of that
    failure. *)
Theorem lookups_read_from_message (fuel : nat) (w : World)
    (transactionList : list Transaction) (payer : Keypair) (maxRetries : Z)
    c (m' : Machine World) pre j s r post :
  executeTransactions fuel w transactionList payer maxRetries = Some (c, m') ->
  trace m' = pre ++ (j, GetSignatureStatus s r) :: post ->
  exists pre' a e,
    pre = pre' ++ [(j, a)]
    /\ failure a = Some e
    /\ errorSignature e = Some s.
Proof.
  intros Hrun Htr.
  destruct (executeTransactions_shape _ _ _ _ _ _ _ Hrun) as (oe & Hshape & _).
  destruct (readFromMessage_run _ _ _ _ _ _ _ Hshape _ _ _ Htr)
    as (tx & _ & _ & Hgood).
  exact (Hgood s r eq_refl).
Qed.

(** In every run each transaction is attempted at most [maxRetries + 1]
    times (never, when [maxRetries] is negative), and its attempts are
    numbered [0], [1], ... *)
Theorem attempts_bounded (fuel : nat) (w : World)
    (transactionList : list Transaction) (payer : Keypair) (maxRetries : Z)
    c (m' : Machine World) (j : Z) :
  executeTransactions fuel w transactionList payer maxRetries = Some (c, m') ->
  exists k,
    attemptsOf j (trace m') = upto k
    /\ Z.of_nat k <= Z.max 0 (maxRetries + 1).
Proof.
  intros Hrun.
  destruct (executeTransactions_shape _ _ _ _ _ _ _ Hrun) as (oe & Hshape & _).
  destruct (RunTrace_attempts _ _ _ _ _ _ _ Hshape j) as (k & Hat & Hk & _).
  eauto.
Qed.

(** A transaction is rejected only when its attempts are used up: one with
    the outcome [Rejected] was attempted exactly [maxRetries + 1] times. *)
Theorem rejected_after_all_attempts (fuel : nat) (w : World)
    (transactionList : list Transaction) (payer : Keypair) (maxRetries : Z)
    c (m' : Machine World) (j : Z) (e : JsError) :
  executeTransactions fuel w transactionList payer maxRetries = Some (c, m') ->
  In (j, Push (Rejected e)) (trace m') ->
  Z.of_nat (length (attemptsOf j (trace m'))) = maxRetries + 1.
Proof.
  intros Hrun Hin.
  destruct (executeTransactions_shape _ _ _ _ _ _ _ Hrun) as (oe & Hshape & _).
  destruct (RunTrace_attempts _ _ _ _ _ _ _ Hshape j) as (k & Hat & _ & Hrej).
  rewrite Hat. unfold upto. rewrite length_map, length_seq. eauto.
Qed.

Lemma pushes_index (P : Z -> Prop) (tr : list Event) :
  Forall (fun ev => P (fst ev)) tr -> Forall (fun p => P (fst p)) (pushes tr).
Proof.
  induction 1 as [|ev tr Hev _ IH]; [constructor|].
  rewrite pushes_cons. apply Forall_app. split; [|assumption].
  destruct ev as [k a]. destruct a; constructor; [assumption | constructor].
Qed.

(** No transaction ever gets two outcomes: the outcomes pushed in a run
    are those of [results], in order, for strictly increasing indices of the
    list. *)
Theorem at_most_one_outcome_each (fuel : nat) (w : World)
    (transactionList : list Transaction) (payer : Keypair) (maxRetries : Z)
    c (m' : Machine World) :
  executeTransactions fuel w transactionList payer maxRetries = Some (c, m') ->
  map snd (pushes (trace m')) = results m'
  /\ StronglySorted Z.lt (map fst (pushes (trace m')))
  /\ Forall (fun p => 0 <= fst p < Z.of_nat (length transactionList))
       (pushes (trace m')).
Proof.
  intros Hrun.
  destruct (executeTransactions_shape _ _ _ _ _ _ _ Hrun) as (oe & Hshape & _).
  destruct (RunTrace_pushes _ _ _ _ _ _ _ Hshape) as (Hrs & _ & Hsorted).
  split; [assumption|]. split; [assumption|].
  apply (pushes_index (fun k => 0 <= k < Z.of_nat (length transactionList))).
  exact (RunTrace_index _ _ _ _ _ _ _ Hshape).
Qed.

(** A run that returns, over a list that is not empty and with
    [0 <= maxRetries], ends with the push of the outcome of the last
    transaction: no delay follows it. *)
Theorem no_delay_after_last (fuel : nat) (w : World)
    (transactionList : list Transaction) (payer : Keypair) (maxRetries : Z)
    rs (m' : Machine World) :
  executeTransactions fuel w transactionList payer maxRetries
  = Some (Normal rs, m') ->
  0 <= maxRetries ->
  transactionList <> [] ->
  exists pre s,
    trace m' = pre ++ [(Z.of_nat (length transactionList) - 1, Push s)].
Proof.
  intros Hrun Hmax Hne.
  destruct (executeTransactions_shape _ _ _ _ _ _ _ Hrun) as (oe & Hshape & Hc).
  destruct oe as [e|]; [discriminate|].
  eapply RunTrace_last; try eassumption. lia.
Qed.

Lemma forLoop_never_attempts fuel len maxRetries payer :
  maxRetries < 0 ->
  forall (entries : list Transaction) (i : Z) (m : Machine World),
    exists m' tr,
      forLoop (S fuel) len maxRetries payer i entries m = Some (Normal tt, m')
      /\ results m' = results m
      /\ trace m' = trace m ++ tr
      /\ Forall (fun ev => snd ev = Delay TX_INTERVAL) tr.
Proof.
  intros Hneg. induction entries as [|t rest IH]; intros i m.
  - exists m, []. cbn. rewrite app_nil_r. repeat split. constructor.
  - cbn [forLoop]. unfold bind at 1.
    rewrite forBody_unfold, whileLoop_unfold. cbn [entered attempt success].
    destruct (Z.leb_spec 0 maxRetries); [lia|]. cbn [andb].
    destruct (i <? len - 1).
    + edestruct IH as (m' & tr & -> & Hres & Htr & Hall).
      exists m', ((i, Delay TX_INTERVAL) :: tr).
      split; [reflexivity|]. split; [exact Hres|].
      split; [rewrite Htr; cbn [trace]; now rewrite <- app_assoc|].
      constructor; [reflexivity | assumption].
    + edestruct IH as (m' & tr & -> & Hres & Htr & Hall).
      exists m', tr. auto.
Qed.

(** With a negative [maxRetries] nothing is attempted: the run returns the
    empty list whatever the transactions, without any call of the network;
    only the delays between transactions pass. *)
Theorem negative_maxRetries_no_outcome (fuel : nat) (w : World)
    (transactionList : list Transaction) (payer : Keypair) (maxRetries : Z) :
  maxRetries < 0 ->
  (0 < fuel)%nat ->
  exists m' : Machine World,
    executeTransactions fuel w transactionList payer maxRetries
    = Some (Normal [], m')
    /\ Forall (fun ev => snd ev = Delay TX_INTERVAL) (trace m').
Proof.
  intros Hneg Hfuel. destruct fuel as [|fuel]; [lia|].
  unfold executeTransactions, bind, gets.
  destruct (forLoop_never_attempts fuel (Z.of_nat (length transactionList))
              maxRetries payer Hneg transactionList 0 (start w))
    as (m' & tr & -> & Hres & Htr & Hall).
  cbn [start results trace app] in Hres, Htr.
  exists m'. rewrite Hres, Htr. auto.
Qed.

End RunInvariants.

(** ** Ingestion: retry, retrieve, handler *)

Section IngestionTheorems.
Context {World : Type} {I : Indexer World}.

Lemma requests_app l1 l2 : requests (l1 ++ l2) = requests l1 ++ requests l2.
Proof. apply flat_map_app. Qed.

Lemma answers_app l1 l2 : answers (l1 ++ l2) = answers l1 ++ answers l2.
Proof. apply flat_map_app. Qed.

Lemma waits_app l1 l2 : waits (l1 ++ l2) = waits l1 ++ waits l2.
Proof. apply flat_map_app. Qed.

Lemma retry_unfold (A : Type) fuel (cb : IM World A) retries (s : IState World) :
  retry (S fuel) cb retries s
  = match cb s with
    | None => None
    | Some (Normal r, s') => Some (Normal r, s')
    | Some (Abrupt error, s') =>
        if retries =? 0
        then Some (Abrupt error, s')
        else retry fuel cb (retries - 1)
               (mkIState (elapse (backoff retries) (iworld s'))
                  (ilog s' ++ [Wait (backoff retries)]))
    end.
Proof.
  cbn [retry]. destruct (cb s) as [[[r|e] s']|]; try reflexivity.
  destruct (retries =? 0); reflexivity.
Qed.

Lemma fetchPage_run req (s : IState World) :
  fetchPage req s
  = let (r, w) := axios_get req (iworld s) in
    Some (match r with
          | Normal response => Normal (data response)
          | Abrupt e => Abrupt e
          end,
          mkIState w (ilog s ++ [Get req r])).
Proof.
  unfold fetchPage, ibind, axiosGet, iret.
  destruct (axios_get req (iworld s)) as [[response|e] w]; reflexivity.
Qed.

(** With a negative number of retries, [retry] never gives up: while the
    callback keeps failing it is called again, whatever the fuel. *)
Theorem retry_negative_never_gives_up (A : Type) (cb : IM World A)
    (Inv : IState World -> Prop) (retries : Z) :
  (forall s, Inv s ->
             exists e s',
               cb s = Some (Abrupt e, s')
               /\ forall ms,
                    Inv (mkIState (elapse ms (iworld s')) (ilog s' ++ [Wait ms]))) ->
  retries < 0 ->
  forall (fuel : nat) (s : IState World),
    Inv s -> retry fuel cb retries s = None.
Proof.
  intros Hcb Hneg fuel. revert retries Hneg.
  induction fuel as [|fuel IH]; intros retries Hneg s Hs; [reflexivity|].
  rewrite retry_unfold. destruct (Hcb s Hs) as (e & s' & -> & Hs').
  destruct (Z.eqb_spec retries 0); [lia|]. apply IH; [lia | apply Hs'].
Qed.

Lemma answers_requests_length (log : list IEvent) :
  length (requests log) = length (answers log).
Proof. induction log as [|[]]; cbn; auto. Qed.

(** When a request fails [k] times and is answered then, with [k] at most
    [retries] (or [retries] negative), [retry] returns the data of the
    answer, after [k + 1] requests and the waits [500 * 2 ** (5 - r)] for
    [r = retries, retries - 1, ...] between them. *)
Theorem retry_recovers (req : Request) (d : AxiosResponse) :
  forall (k : nat) (retries : Z) (fuel : nat) (s : IState World),
    FailsThen req k d (iworld s) ->
    Z.of_nat k <= retries \/ retries < 0 ->
    (k < fuel)%nat ->
    exists s' log errors,
      retry fuel (fetchPage req) retries s = Some (Normal (data d), s')
      /\ ilog s' = ilog s ++ log
      /\ requests log = repeat req (S k)
      /\ answers log = map Abrupt errors ++ [Normal d]
      /\ length errors = k
      /\ waits log = map backoff (countdown k retries).
Proof.
  induction k as [|k IH]; intros retries fuel s Hf Hr Hfuel;
    (destruct fuel as [|fuel]; [lia|]); rewrite retry_unfold, fetchPage_run.
  - destruct Hf as (w' & ->).
    eexists; exists [Get req (Normal d)], []. repeat split.
  - destruct Hf as (e & w' & -> & Hk).
    cbv beta iota zeta. cbn [iworld ilog].
    destruct (Z.eqb_spec retries 0); [lia|].
    edestruct (IH (retries - 1) fuel
                 (mkIState (elapse (backoff retries) w')
                    ((ilog s ++ [Get req (Abrupt e)]) ++ [Wait (backoff retries)])))
      as (s' & log & errors & -> & Hlog & Hreq & Hans & Hlen & Hw);
      [apply Hk | lia | lia |].
    cbn [ilog] in Hlog.
    exists s', (Get req (Abrupt e) :: Wait (backoff retries) :: log), (e :: errors).
    split; [reflexivity|].
    split; [rewrite Hlog, <- !app_assoc; reflexivity|].
    split; [change (requests (Get req (Abrupt e) :: Wait (backoff retries) :: log))
              with (req :: requests log); now rewrite Hreq|].
    split; [change (answers (Get req (Abrupt e) :: Wait (backoff retries) :: log))
              with (Abrupt e :: answers log); now rewrite Hans|].
    split; [cbn; now rewrite Hlen|].
    change (waits (Get req (Abrupt e) :: Wait (backoff retries) :: log))
      with (backoff retries :: waits log).
    now rewrite Hw.
Qed.

Lemma retry_fails_through (Inv : World -> Prop) (req : Request) :
  AlwaysFails Inv ->
  forall (k : nat) (fuel : nat) (s : IState World),
    Inv (iworld s) ->
    (k < fuel)%nat ->
    exists e s' log errors,
      retry fuel (fetchPage req) (Z.of_nat k) s = Some (Abrupt e, s')
      /\ ilog s' = ilog s ++ log
      /\ requests log = repeat req (S k)
      /\ answers log = map Abrupt errors ++ [Abrupt e]
      /\ length errors = k
      /\ waits log = map backoff (countdown k (Z.of_nat k)).
Proof.
  intros HI. induction k as [|k IH]; intros fuel s Hs Hfuel;
    (destruct fuel as [|fuel]; [lia|]); rewrite retry_unfold, fetchPage_run;
    destruct (HI req (iworld s) Hs) as (e & w' & -> & Hw').
  - exists e. eexists; exists [Get req (Abrupt e)], []. repeat split.
  - cbv beta iota zeta. cbn [iworld ilog].
    destruct (Z.eqb_spec (Z.of_nat (S k)) 0); [lia|].
    replace (Z.of_nat (S k) - 1) with (Z.of_nat k) by lia.
    edestruct (IH fuel
                 (mkIState (elapse (backoff (Z.of_nat (S k))) w')
                    ((ilog s ++ [Get req (Abrupt e)])
                       ++ [Wait (backoff (Z.of_nat (S k)))])))
      as (e' & s' & log & errors & -> & Hlog & Hreq & Hans & Hlen & Hw);
      [apply Hw' | lia |].
    cbn [ilog] in Hlog.
    exists e', s',
      (Get req (Abrupt e) :: Wait (backoff (Z.of_nat (S k))) :: log),
      (e :: errors).
    split; [reflexivity|].
    split; [rewrite Hlog, <- !app_assoc; reflexivity|].
    split; [change (requests (Get req (Abrupt e)
                               :: Wait (backoff (Z.of_nat (S k))) :: log))
              with (req :: requests log); now rewrite Hreq|].
    split; [change (answers (Get req (Abrupt e)
                               :: Wait (backoff (Z.of_nat (S k))) :: log))
              with (Abrupt e :: answers log); now rewrite Hans|].
    split; [cbn; now rewrite Hlen|].
    change (waits (Get req (Abrupt e)
                     :: Wait (backoff (Z.of_nat (S k))) :: log))
      with (backoff (Z.of_nat (S k)) :: waits log).
    cbn [countdown map].
    replace (Z.of_nat (S k) - 1) with (Z.of_nat k) by lia. now rewrite Hw.
Qed.

(** When every request fails and [0 <= retries], [retry] makes
    [retries + 1] requests, waits [500 * 2 ** (5 - r)] for
    [r = retries, ..., 1] between them, and throws the error of the last
    request. *)
Theorem retry_gives_up (Inv : World -> Prop) (req : Request)
    (retries : Z) (fuel : nat) (s : IState World) :
  AlwaysFails Inv ->
  Inv (iworld s) ->
  0 <= retries ->
  (Z.to_nat retries < fuel)%nat ->
  exists e s' log errors,
    retry fuel (fetchPage req) retries s = Some (Abrupt e, s')
    /\ ilog s' = ilog s ++ log
    /\ requests log = repeat req (S (Z.to_nat retries))
    /\ answers log = map Abrupt errors ++ [Abrupt e]
    /\ Z.of_nat (length errors) = retries
    /\ waits log = map backoff (countdown (Z.to_nat retries) retries).
Proof.
  intros HI Hs Hr Hfuel.
  destruct (retry_fails_through Inv req HI (Z.to_nat retries) fuel s Hs Hfuel)
    as (e & s' & log & errors & Hrun & Hlog & Hreq & Hans & Hlen & Hw).
  rewrite Z2Nat.id in Hrun, Hw by assumption.
  exists e, s', log, errors. repeat split; try assumption. lia.
Qed.

(** [handler] gives up with the first page: when every request fails, it
    throws the error of the sixth request for page 1, after waits of 500,
    1000, 2000, 4000 and 8000 ms, and returns no drop. *)
Theorem handler_gives_up (Inv : World -> Prop) (collection : string)
    (fuel : nat) (s : IState World) :
  AlwaysFails Inv ->
  Inv (iworld s) ->
  (5 < fuel)%nat ->
  exists e s' log errors,
    handler fuel collection s = Some (Abrupt e, s')
    /\ ilog s' = ilog s ++ log
    /\ requests log
       = repeat {| req_url := "https://api.shyft.to/sol/v1/collections/get_nfts";
                   req_api_key := SHYFT_KEY;
                   req_page := 1;
                   req_size := 50;
                   req_collection_address := collection;
                   req_network := "mainnet-beta" |} 6
    /\ answers log = map Abrupt errors ++ [Abrupt e]
    /\ length errors = 5%nat
    /\ waits log = map inject_Z [500; 1000; 2000; 4000; 8000].
Proof.
  intros HI Hs Hfuel.
  destruct (retry_fails_through Inv (pageRequest 1 collection "mainnet") HI
              5%nat fuel s Hs Hfuel)
    as (e & s' & log & errors & Hrun & Hlog & Hreq & Hans & Hlen & Hw).
  exists e, s', log, errors.
  split; [|split; [assumption|]; split; [exact Hreq|]; split; [assumption|];
           split; [assumption | exact Hw]].
  unfold handler. destruct fuel as [|fuel']; [lia|].
  cbn [pageLoop le_jsnum]. unfold ibind, retrieve.
  change 5 with (Z.of_nat 5). now rewrite Hrun.
Qed.

(** The pages [page], [page + 1], ..., [k + 1] of them. *)
Lemma pageLoop_serves (Inv : World -> Prop) (collection : string) (total : Z)
    (content : Z -> list Nft) (fuel : nat) :
  Serves Inv collection total content ->
  (0 < fuel)%nat ->
  forall (k n : nat) (page : Z) (x : jsnum) (acc : list Drop)
         (s : IState World),
    le_jsnum page x = true ->
    Z.to_nat (total - page) = k ->
    (S k < n)%nat ->
    Inv (iworld s) ->
    let pages := map (fun j => page + Z.of_nat j) (seq 0 (S k)) in
    exists s' log,
      pageLoop n fuel collection page x acc s
      = Some (Normal (acc ++ flat_map (fun p => map toDrop (content p)) pages), s')
      /\ ilog s' = ilog s ++ log
      /\ requests log = map (fun p => pageRequest p collection "mainnet") pages
      /\ waits log = []
      /\ Inv (iworld s').
Proof.
  intros HS Hfuel. destruct fuel as [|fuel]; [lia|].
  induction k as [|k IH]; intros n page x acc s Hle Hk Hn Hs pages;
    (destruct n as [|n]; [lia|]); cbn [pageLoop]; rewrite Hle;
    unfold ibind at 1, retrieve; rewrite retry_unfold, fetchPage_run;
    destruct (HS page (iworld s) Hs) as (w' & -> & Hw');
    cbv beta iota zeta; cbn [data result total_pages nfts].
  - destruct n as [|n]; [lia|]. cbn [pageLoop le_jsnum].
    destruct (Z.leb_spec (page + 1) total); [lia|].
    eexists; eexists. split; [unfold iret; subst pages; cbn [seq map flat_map];
                              rewrite Z.add_0_r, app_nil_r; reflexivity|].
    cbn [ilog iworld]. split; [reflexivity|].
    subst pages. cbn [seq map]. rewrite Z.add_0_r. repeat split. assumption.
  - set (ans := Normal (mkAxiosResponse
                          (mkResponseData (mkCollectionPage total (content page))))).
    edestruct (IH n (page + 1) (Num total)
                 (acc ++ map toDrop (content page))
                 (mkIState w' (ilog s ++ [Get (pageRequest page collection "mainnet")
                                            ans])))
      as (s' & log & Hrun & Hlog & Hreq & Hw & Hinv);
      [cbn [le_jsnum]; destruct (Z.leb_spec (page + 1) total); [reflexivity | lia]
      | lia | lia | exact Hw' |].
    cbv zeta in Hrun, Hreq. cbn [ilog] in Hlog.
    assert (Hpages : pages
                     = page :: map (fun j => page + 1 + Z.of_nat j) (seq 0 (S k))).
    { subst pages. symmetry. apply range_shift. }
    exists s', (Get (pageRequest page collection "mainnet") ans :: log).
    rewrite Hrun, Hpages. cbn [flat_map map].
    split; [now rewrite <- app_assoc|].
    split; [rewrite Hlog, <- app_assoc; reflexivity|].
    split; [change (requests (?ev :: log)) with
              (pageRequest page collection "mainnet" :: requests log);
            now rewrite Hreq|].
    split; [exact Hw | exact Hinv].
Qed.

(** [handler] asks for page 1 and then for every page up to the number of
    pages the service reports (for page 1 even when that number is zero or
    less); it makes one request per page, in order and without waiting, and
    returns the entries of the pages in that order, each with the owner from
    [owner] and the address from [mint]. *)
Theorem handler_collects_pages (Inv : World -> Prop) (collection : string)
    (total : Z) (content : Z -> list Nft) (fuel : nat) (s : IState World) :
  Serves Inv collection total content ->
  Inv (iworld s) ->
  (S (Z.to_nat (Z.max 1 total)) < fuel)%nat ->
  let pages := pagesTo (Z.to_nat (Z.max 1 total)) in
  exists s' log,
    handler fuel collection s
    = Some (Normal (flat_map (fun p => map toDrop (content p)) pages), s')
    /\ ilog s' = ilog s ++ log
    /\ requests log
       = map (fun p =>
                {| req_url := "https://api.shyft.to/sol/v1/collections/get_nfts";
                   req_api_key := SHYFT_KEY;
                   req_page := p;
                   req_size := 50;
                   req_collection_address := collection;
                   req_network := "mainnet-beta" |}) pages
    /\ waits log = [].
Proof.
  intros HS Hs Hfuel pages.
  destruct (pageLoop_serves Inv collection total content fuel HS ltac:(lia)
              (Z.to_nat (total - 1)) fuel 1 Infinity [] s
              eq_refl eq_refl ltac:(lia) Hs)
    as (s' & log & Hrun & Hlog & Hreq & Hw & _).
  cbv zeta in Hrun, Hreq.
  assert (Hpages : map (fun j => 1 + Z.of_nat j) (seq 0 (S (Z.to_nat (total - 1))))
                   = pages).
  { subst pages. unfold pagesTo.
    replace (Z.to_nat (Z.max 1 total)) with (S (Z.to_nat (total - 1))) by lia.
    rewrite <- seq_shift, map_map. apply map_ext. intros j. lia. }
  rewrite Hpages in Hrun, Hreq.
  exists s', log. unfold handler. rewrite Hrun.
  split; [reflexivity|]. split; [assumption|]. split; [exact Hreq | assumption].
Qed.

End IngestionTheorems.

(** ** Concrete runs of the further properties *)

Lemma submissions_are_fresh_witness :
  exists pre' bh lvh h tx,
    firstn 3 (trace (ranTo landed landedRun))
    = pre' ++ [(0, GetLatestBlockhash (Normal (bh, lvh)));
               (0, GetBlockHeight (Normal h))]
    /\ h <= lvh
    /\ index [sampleTransaction] 0 = Some tx
    /\ {| instructions := instructions sampleTransaction;
          recentBlockhash := Some "hashA" |}
       = {| instructions := instructions tx; recentBlockhash := Some bh |}.
Proof.
  refine (submissions_are_fresh (C := scriptConnection) 5 landed
            [sampleTransaction] tt 3
            (settledAs landedRun) (ranTo landed landedRun)
            (firstn 3 (trace (ranTo landed landedRun))) 0
            {| instructions := instructions sampleTransaction;
               recentBlockhash := Some "hashA" |}
            (Abrupt (newError "Signature abc123 was not confirmed in 30 seconds"))
            (skipn 4 (trace (ranTo landed landedRun))) _ _);
    vm_compute; reflexivity.
Defined.

Lemma fulfilled_on_evidence_witness :
  exists pre' a,
    firstn 5 (trace (ranTo landed landedRun)) = pre' ++ [(0, a)]
    /\ ((exists t, a = Send t (Normal "abc123"))
        \/ (exists st, a = GetSignatureStatus "abc123" (Normal st)
                       /\ isFinalized st = true)).
Proof.
  refine (fulfilled_on_evidence (C := scriptConnection) 5 landed
            [sampleTransaction] tt 3
            (settledAs landedRun) (ranTo landed landedRun)
            (firstn 5 (trace (ranTo landed landedRun))) 0 "abc123" [] _ _);
    vm_compute; reflexivity.
Defined.

Lemma lookups_read_from_message_witness :
  exists pre' a e,
    firstn 4 (trace (ranTo landed landedRun)) = pre' ++ [(0, a)]
    /\ failure a = Some e
    /\ errorSignature e = Some "abc123".
Proof.
  refine (lookups_read_from_message (C := scriptConnection) 5 landed
            [sampleTransaction] tt 3
            (settledAs landedRun) (ranTo landed landedRun)
            (firstn 4 (trace (ranTo landed landedRun))) 0 "abc123"
            (Normal finalized)
            (skipn 5 (trace (ranTo landed landedRun))) _ _);
    vm_compute; reflexivity.
Defined.

Lemma attempts_bounded_witness :
  exists k,
    attemptsOf 0 (trace (ranTo expiring expiringRun)) = upto k
    /\ Z.of_nat k <= Z.max 0 (3 + 1).
Proof.
  refine (attempts_bounded (C := scriptConnection) 5 expiring
            [sampleTransaction] tt 3
            (settledAs expiringRun) (ranTo expiring expiringRun) 0 _).
  vm_compute; reflexivity.
Defined.

Lemma rejected_after_all_attempts_witness :
  Z.of_nat (length (attemptsOf 0 (trace (ranTo expiring expiringRun)))) = 3 + 1.
Proof.
  refine (rejected_after_all_attempts (C := scriptConnection) 5 expiring
            [sampleTransaction] tt 3
            (settledAs expiringRun) (ranTo expiring expiringRun) 0
            (expiredError "sigA"
               "Signature sigA has expired: block height exceeded.") _ _).
  - vm_compute; reflexivity.
  - vm_compute. repeat (first [left; reflexivity | right]).
Defined.

Lemma at_most_one_outcome_each_witness :
  map snd (pushes (trace (ranTo accepting acceptedRun)))
  = results (ranTo accepting acceptedRun)
  /\ StronglySorted Z.lt (map fst (pushes (trace (ranTo accepting acceptedRun))))
  /\ Forall (fun p => 0 <= fst p < Z.of_nat 2)
       (pushes (trace (ranTo accepting acceptedRun))).
Proof.
  refine (at_most_one_outcome_each (C := scriptConnection) 5 accepting
            [sampleTransaction; sampleTransaction] tt 3
            (settledAs acceptedRun) (ranTo accepting acceptedRun) _).
  vm_compute; reflexivity.
Defined.

Lemma no_delay_after_last_witness :
  exists pre s,
    trace (ranTo accepting acceptedRun) = pre ++ [(Z.of_nat 2 - 1, Push s)].
Proof.
  refine (no_delay_after_last (C := scriptConnection) 5 accepting
            [sampleTransaction; sampleTransaction] tt 3
            [Fulfilled "sig1"; Fulfilled "sig1"]
            (ranTo accepting acceptedRun) _ _ _);
    [vm_compute; reflexivity | lia | discriminate].
Defined.

Lemma negative_maxRetries_no_outcome_witness :
  exists m' : Machine Script,
    executeTransactions 1 accepting [sampleTransaction; sampleTransaction] tt (-1)
    = Some (Normal [], m')
    /\ Forall (fun ev => snd ev = Delay TX_INTERVAL) (trace m').
Proof.
  refine (negative_maxRetries_no_outcome (C := scriptConnection) 1 accepting
            [sampleTransaction; sampleTransaction] tt (-1) _ _); lia.
Defined.

Lemma retry_negative_never_gives_up_witness :
  retry 50 (fetchPage (pageRequest 1 "collection" "mainnet")) (-1)
    (mkIState refusing [])
  = None.
Proof.
  refine (retry_negative_never_gives_up (I := feedIndexer) ResponseData
            (fetchPage (pageRequest 1 "collection" "mainnet"))
            (fun s => iworld s = refusing) (-1) _ _
            50%nat (mkIState refusing []) _); [|lia|reflexivity].
  intros [w log] Hs. cbn in Hs. subst w. rewrite fetchPage_run.
  eexists; eexists. split; [reflexivity|]. reflexivity.
Defined.

Lemma retry_recovers_witness :
  exists s' log errors,
    retry 3 (fetchPage (pageRequest 1 "collection" "mainnet")) 5
      (mkIState flaky [])
    = Some (Normal (data (samplePage 1 1)), s')
    /\ ilog s' = [] ++ log
    /\ requests log = repeat (pageRequest 1 "collection" "mainnet") 3
    /\ answers log = map Abrupt errors ++ [Normal (samplePage 1 1)]
    /\ length errors = 2%nat
    /\ waits log = map backoff (countdown 2 5).
Proof.
  refine (retry_recovers (I := feedIndexer)
            (pageRequest 1 "collection" "mainnet") (samplePage 1 1)
            2%nat 5 3%nat (mkIState flaky []) _ _ _); [|left; lia|lia].
  cbn. eexists; eexists. split; [reflexivity|]. intros _.
  eexists; eexists. split; [reflexivity|]. intros _.
  eexists. reflexivity.
Defined.

Lemma retry_gives_up_witness :
  exists e s' log errors,
    retry 3 (fetchPage (pageRequest 1 "collection" "mainnet")) 2
      (mkIState refusing [])
    = Some (Abrupt e, s')
    /\ ilog s' = [] ++ log
    /\ requests log
       = repeat (pageRequest 1 "collection" "mainnet") (S (Z.to_nat 2))
    /\ answers log = map Abrupt errors ++ [Abrupt e]
    /\ Z.of_nat (length errors) = 2
    /\ waits log = map backoff (countdown (Z.to_nat 2) 2).
Proof.
  refine (retry_gives_up (I := feedIndexer) (fun w => w = refusing)
            (pageRequest 1 "collection" "mainnet") 2 3%nat
            (mkIState refusing []) _ _ _ _);
    [|reflexivity|lia|simpl; lia].
  intros req w ->. eexists; eexists. split; [reflexivity|]. reflexivity.
Defined.

Lemma handler_gives_up_witness :
  exists e s' log errors,
    handler 6 "collection" (mkIState refusing []) = Some (Abrupt e, s')
    /\ ilog s' = [] ++ log
    /\ requests log = repeat (pageRequest 1 "collection" "mainnet") 6
    /\ answers log = map Abrupt errors ++ [Abrupt e]
    /\ length errors = 5%nat
    /\ waits log = map inject_Z [500; 1000; 2000; 4000; 8000].
Proof.
  refine (handler_gives_up (I := feedIndexer) (fun w => w = refusing)
            "collection" 6%nat (mkIState refusing []) _ _ _);
    [|reflexivity|lia].
  intros req w ->. eexists; eexists. split; [reflexivity|]. reflexivity.
Defined.

Lemma handler_collects_pages_witness :
  let pages := pagesTo (Z.to_nat (Z.max 1 3)) in
  exists s' log,
    handler 5 "collection" (mkIState threePages [])
    = Some (Normal (flat_map
                      (fun p => map toDrop (nfts (result (data (samplePage 3 p)))))
                      pages), s')
    /\ ilog s' = [] ++ log
    /\ requests log = map (fun p => pageRequest p "collection" "mainnet") pages
    /\ waits log = [].
Proof.
  refine (handler_collects_pages (I := feedIndexer) (fun w => w = threePages)
            "collection" 3
            (fun p => nfts (result (data (samplePage 3 p))))
            5%nat (mkIState threePages []) _ _ _);
    [|reflexivity|simpl; lia].
  intros page w ->. eexists. split; reflexivity.
Defined.

(** ** From the drop list to the outcomes *)

Section Pipeline.
Context {L : LedgerClient} {World : Type} {C : Connection World}.

(** The batches the batcher makes are submitted as they are.  With a
    capacity of at least one, drops that are turned into instructions
    without error, [0 <= maxRetries] and status lookups that do not throw, running [executeTransactions] on the
    result of [generateTransactions] returns one outcome per batch,
    [ceil (N / batchSize)] in all, and the submissions for the batch [j]
    carry the transfers of the drops [j * batchSize], ... in their order. *)
Theorem generated_batches_settle (fuel fuel' : nat) (w : World)
    (batchSize : Z) (dropList : list Drop) (fromWallet : PublicKey)
    (amount : float) (payer : Keypair) (maxRetries : Z)
    (txInstructions : list TransactionInstruction) :
  1 <= batchSize ->
  mapTransfer fromWallet amount dropList = Normal txInstructions ->
  (length txInstructions < fuel)%nat ->
  0 <= maxRetries ->
  (Z.to_nat maxRetries + 1 < fuel')%nat ->
  (forall sig w0, exists st w', getSignatureStatus sig true w0 = (Normal st, w')) ->
  exists transactions rs (m' : Machine World),
    generateTransactions fuel batchSize dropList fromWallet amount
    = Some (Normal transactions)
    /\ executeTransactions fuel' w transactions payer maxRetries
       = Some (Normal rs, m')
    /\ Z.of_nat (length rs)
       = (Z.of_nat (length txInstructions) + batchSize - 1) / batchSize
    /\ forall pre j t r post,
         trace m' = pre ++ (j, Send t r) :: post ->
         0 <= j
         /\ instructions t
            = firstn (Z.to_nat batchSize)
                (skipn (Z.to_nat (j * batchSize)) txInstructions).
Proof.
  intros Hc Hmap Hfuel Hmax Hfuel' Hst.
  pose proof (generateTransactions_slices _ _ _ _ _ fuel Hc Hmap Hfuel) as E.
  cbv zeta in E.
  set (n := Z.of_nat (length txInstructions)) in *.
  destruct (ceil_bounds n batchSize ltac:(lia)) as [[Hlo Hhi] Hk].
  cbv zeta in Hk.
  set (k := - (- n / batchSize)) in *.
  assert (0 <= k) by nia.
  set (transactions := slices (Z.to_nat k) (Z.to_nat batchSize) txInstructions) in *.
  destruct (executeTransactions_cases fuel' w transactions payer maxRetries
              Hmax Hfuel') as (c & m' & Hrun & Hcase).
  destruct c as [rs|e].
  2:{ destruct Hcase as (_ & tr & sig & body & _ & _ & _ & w0 & w' & Hw).
      destruct (Hst sig w0) as (st & w'' & Hn). congruence. }
  destruct Hcase as (-> & Hlen & _).
  exists transactions, (results m'), m'.
  split; [exact E|]. split; [exact Hrun|].
  split; [rewrite Hlen; unfold transactions; rewrite slices_length; lia|].
  intros pre j t r post Htr.
  destruct (executeTransactions_shape _ _ _ _ _ _ _ Hrun) as (oe & Hshape & _).
  destruct (freshSend_run _ _ _ _ _ _ _ Hshape _ _ _ Htr)
    as (tx & Hn & Hj & Hgood).
  cbn [fst] in Hn, Hj. rewrite Z.sub_0_r in Hn.
  destruct (Hgood t r eq_refl) as (pre' & bh & lvh & h & _ & _ & ->).
  split; [assumption|]. cbn [instructions].
  assert (Hjk : (Z.to_nat j < Z.to_nat k)%nat).
  { unfold transactions in Hn.
    rewrite <- (slices_length (Z.to_nat k) (Z.to_nat batchSize) txInstructions).
    apply nth_error_Some. congruence. }
  unfold transactions in Hn. rewrite slices_nth in Hn by assumption.
  inversion Hn; subst tx. cbn [instructions].
  now replace (Z.to_nat (j * batchSize))
    with (Z.to_nat j * Z.to_nat batchSize)%nat by nia.
Qed.

End Pipeline.

Lemma executeTransactions_ends_witness :
  exists c m',
    executeTransactions 5 statusDown [sampleTransaction; sampleTransaction] tt 3
    = Some (c, m')
    /\ match c with
       | Normal rs =>
           rs = results m'
           /\ length rs = length [sampleTransaction; sampleTransaction]
           /\ Segments (Z.of_nat (length [sampleTransaction; sampleTransaction]))
                0 rs (trace m')
       | Abrupt e =>
           (length (results m') < length [sampleTransaction; sampleTransaction])%nat
           /\ exists tr sig body,
                Segments (Z.of_nat (length [sampleTransaction; sampleTransaction]))
                  0 (results m') tr
                /\ trace m'
                   = tr ++ body
                       ++ [(Z.of_nat (length (results m')),
                            GetSignatureStatus sig (Abrupt e))]
                /\ quiet (Z.of_nat (length (results m'))) body
                /\ exists w0 w', getSignatureStatus sig true w0 = (Abrupt e, w')
       end.
Proof.
  refine (executeTransactions_ends (C := scriptConnection) 5 statusDown
            [sampleTransaction; sampleTransaction] tt 3 _ _); simpl; lia.
Defined.

Lemma executeTransactions_settles_all_witness :
  exists rs (m' : Machine unit),
    executeTransactions (C := steadyConnection) 5 tt
      [sampleTransaction; sampleTransaction] tt 3
    = Some (Normal rs, m')
    /\ length rs = length [sampleTransaction; sampleTransaction]
    /\ pushes (trace m') = indexed 0 rs
    /\ Sequential (trace m').
Proof.
  refine (executeTransactions_settles_all (C := steadyConnection) 5 tt
            [sampleTransaction; sampleTransaction] tt 3 _ _ _);
    [lia | simpl; lia |].
  intros sig w0. eexists; eexists; reflexivity.
Defined.

Lemma generated_batches_settle_witness :
  exists transactions rs (m' : Machine unit),
    generateTransactions (L := sampleClient) 4 2 sampleDrops "payer" 3
    = Some (Normal transactions)
    /\ executeTransactions (C := steadyConnection) 5 tt transactions tt 3
       = Some (Normal rs, m')
    /\ Z.of_nat (length rs) = (Z.of_nat 3 + 2 - 1) / 2
    /\ forall pre j t r post,
         trace m' = pre ++ (j, Send t r) :: post ->
         0 <= j
         /\ instructions t
            = firstn (Z.to_nat 2)
                (skipn (Z.to_nat (j * 2))
                   (map (fun d =>
                           mkTransferParams "payer" (owner d) 3000000000%float)
                      sampleDrops)).
Proof.
  refine (generated_batches_settle (C := steadyConnection) 4 5 tt 2 sampleDrops
            "payer" 3 tt 3
            (map (fun d => mkTransferParams "payer" (owner d) 3000000000%float)
               sampleDrops)
            _ _ _ _ _ _);
    [lia | reflexivity | simpl; lia | lia | simpl; lia |].
  intros sig w0. eexists; eexists; reflexivity.
Defined.
